(** * The nested task tree of note.py

    A shallow embedding of the task store of [ModernTodoApp]: the
    path-addressed lookup ([get_task_from_path],
    [get_parent_list_from_path]), the four mutations
    ([add_task_to_path], [toggle_task], [edit_task], [delete_task]), the
    persistence pair ([load_tasks], [save_tasks]) and the traversal that
    builds the task widgets ([refresh_display],
    [display_task_recursive]); around them the entry field
    ([add_main_task]), the subtask dialog ([add_subtask]), start and
    close ([startup], [on_closing]) and the hover colours
    ([lighten_color]). *)

From Stdlib Require Import ZArith Ascii String List Lia.
From stdpp Require Import base option list strings gmap.

Local Open Scope string_scope.
Local Open Scope Z_scope.
Local Open Scope list_scope.
Local Open Scope stdpp_scope.

(** ** Data model *)

(** A task is the dict [{"text": ..., "done": ..., "subtasks": ...}].
    The code reads "text" with [task['text']] and the other two keys with
    a default ([task.get('done', False)], [.get('subtasks', [])],
    ['subtasks' not in parent_task]), so those two may be absent. *)
#[local] Unset Elimination Schemes.
Inductive task : Type :=
  Task { text : string; done : option bool; subtasks : option (list task) }.
#[local] Set Elimination Schemes.

(** [self.tasks_tree] *)
Abbreviation tree := (list task).

(** [path: List[int]]: Python integers, negative ones included. *)
Abbreviation path := (list Z).

Definition set_text (t : task) (s : string) : task :=
  Task s (done t) (subtasks t).
Definition set_done (t : task) (b : bool) : task :=
  Task (text t) (Some b) (subtasks t).
Definition set_subtasks (t : task) (l : tree) : task :=
  Task (text t) (done t) (Some l).

(** [task.get('done', False)] *)
Definition get_done (t : task) : bool := default false (done t).

(** [task.get('subtasks', [])] *)
Definition get_subtasks (t : task) : tree := default [] (subtasks t).

(** Induction over a task and, below it, over its list of subtasks. *)
Section task_induction.
Variable P : task → Prop.
Hypothesis leaf : ∀ s d, P (Task s d None).
Hypothesis node : ∀ s d l, Forall P l → P (Task s d (Some l)).

Fixpoint task_nested_ind (t : task) : P t :=
  match t with
  | Task s d None => leaf s d
  | Task s d (Some l) =>
      node s d l
        ((fix each (l : tree) : Forall P l :=
            match l with
            | [] => Forall_nil_2 P
            | c :: l' => Forall_cons_2 P c l' (task_nested_ind c) (each l')
            end) l)
  end.
End task_induction.

(** ** Python list subscripts *)

(** The position that [l[index]] addresses in a list of length [n]:
    [0 <= index < n] counts from the front, [-n <= index < 0] from the
    back, anything else is an IndexError. *)
Definition position (n : nat) (index : Z) : option nat :=
  if bool_decide (0 ≤ index < Z.of_nat n) then Some (Z.to_nat index)
  else if bool_decide (- Z.of_nat n ≤ index < 0)
       then Some (Z.to_nat (Z.of_nat n + index))
       else None.

(** [l[index]], [None] standing for the IndexError. *)
Definition getitem {A} (l : list A) (index : Z) : option A :=
  position (length l) index ≫= (l !!.).

(** ** Text *)

(** [str.isspace] on one character, for code points below 256 (the
    characters of a Rocq [string]). *)
Definition isspace (c : ascii) : bool :=
  let n := N_of_ascii c in
  ((9 <=? n) && (n <=? 13) || (28 <=? n) && (n <=? 32)
   || (n =? 133) || (n =? 160))%N.

Fixpoint lstrip (s : string) : string :=
  match s with
  | EmptyString => EmptyString
  | String c s' => if isspace c then lstrip s' else s
  end.

(** [s.strip()] *)
Definition strip (s : string) : string :=
  String.rev (lstrip (String.rev (lstrip s))).

(** Truth value of a string: [if text] is [if text != ""]. *)
Definition truthy (s : string) : bool :=
  match s with EmptyString => false | String _ _ => true end.

(** ** The backing file *)

Inductive exn : Type :=
  | JSONDecodeError | FileNotFoundError | PermissionError | UnicodeDecodeError
  | RecursionError | ValueError.

Inductive result (A : Type) : Type :=
  | Ok (a : A)
  | Raise (e : exn).
Arguments Ok {A} a.
Arguments Raise {A} e.

(** What the operating system answers for [self.data_file]:
    - [Absent]: [os.path.exists] is false;
    - [OpenFails e]: the file exists and [open(.., 'r')] raises [e];
    - [EmptyFile]: the file opens and [os.path.getsize] is 0;
    - [LoadFails e]: the file opens, is not empty, and [json.load] raises
      [e]: JSONDecodeError for text that the decoder rejects,
      UnicodeDecodeError for bytes that are not text, RecursionError for
      brackets nested deeper than the interpreter's recursion limit,
      plain ValueError for an integer literal longer than the
      interpreter's digit limit;
    - [Document T]: [json.load] returns the list of task dicts [T]; a
      dict may come without its "done" or "subtasks" key. *)
Inductive backing : Type :=
  | Absent
  | OpenFails (e : exn)
  | EmptyFile
  | LoadFails (e : exn)
  | Document (T : tree).

(** The object: its task tree, the file behind [data_file], and whether
    the file can be opened for writing ([open(.., 'w')] succeeds). The
    write that follows a successful [open] is taken to complete:
    [json.dump] of strings, booleans and lists raises nothing of its own,
    and an I/O error in the middle of the write, which would leave a
    truncated file, is not modelled. *)
Record app : Type :=
  App { tasks_tree : tree; data_file : backing; writable : bool }.

Definition with_tree (s : app) (T : tree) : app :=
  App T (data_file s) (writable s).

(** [os.path.exists(self.data_file)] *)
Definition os_path_exists (f : backing) : bool :=
  match f with Absent => false | _ => true end.

(** The body of the [try] in [load_tasks]: open, test the size, decode. *)
Definition read_tasks (f : backing) : result tree :=
  match f with
  | Absent => Raise FileNotFoundError
  | OpenFails e => Raise e
  | EmptyFile => Ok []
  | LoadFails e => Raise e
  | Document T => Ok T
  end.

(** [except (json.JSONDecodeError, FileNotFoundError)] *)
Definition load_catches (e : exn) : bool :=
  match e with
  | JSONDecodeError | FileNotFoundError => true
  | PermissionError | UnicodeDecodeError | RecursionError | ValueError => false
  end.

Definition load_tasks (s : app) : result app :=
  if os_path_exists (data_file s) then
    match read_tasks (data_file s) with
    | Ok T => Ok (with_tree s T)
    | Raise e => if load_catches e then Ok (with_tree s []) else Raise e
    end
  else Ok (with_tree s []).

(** [save_tasks]: the whole tree replaces the file; when [open(.., 'w')]
    raises, the [except Exception] ends in a message box and neither tree
    nor file has changed. *)
Definition save_tasks (s : app) : app :=
  if writable s then App (tasks_tree s) (Document (tasks_tree s)) true
  else s.

(** ** Addressing *)

(** The loop of [get_task_from_path]: the last index returns
    [current[index]], every other one moves [current] to the subtasks of
    [current[index]]. IndexError ends in [None]. *)
Fixpoint walk (current : tree) (p : path) : option task :=
  match p with
  | [] => None
  | [index] => getitem current index
  | index :: rest =>
      match getitem current index with
      | Some t => walk (get_subtasks t) rest
      | None => None
      end
  end.

Definition get_task_from_path (T : tree) (p : path) : option task :=
  match p with
  | [] => None
  | _ => walk T p
  end.

(** The loop of [get_parent_list_from_path] over [path[:-1]]:
    [current = current[index]['subtasks']], where a missing key is a
    KeyError and ends in [None] like the IndexError. *)
Fixpoint descend (current : tree) (parent_path : path) : option tree :=
  match parent_path with
  | [] => Some current
  | index :: rest =>
      match getitem current index with
      | Some t =>
          match subtasks t with
          | Some l => descend l rest
          | None => None
          end
      | None => None
      end
  end.

Definition get_parent_list_from_path (T : tree) (p : path) : option tree :=
  match p with
  | [] => None
  | [_] => Some T
  | _ => descend T (removelast p)
  end.

(** ** Mutation in place

    [get_task_from_path] and [get_parent_list_from_path] return objects
    that live inside [self.tasks_tree], and the callers mutate them. No
    task or list is shared (json.load and the dict literal of
    [add_task_to_path] build fresh objects), so mutating the object
    found by a walk is rebuilding the tree with the change made at the
    place the walk ends. *)

(** The task that [walk current p] returns becomes [f] of itself. *)
Fixpoint mutate_task (f : task → task) (current : tree) (p : path) : tree :=
  match p with
  | [] => current
  | [index] =>
      match position (length current) index with
      | Some n => alter f n current
      | None => current
      end
  | index :: rest =>
      match position (length current) index with
      | Some n =>
          alter (λ t, match subtasks t with
                      | Some l => set_subtasks t (mutate_task f l rest)
                      | None => t
                      end) n current
      | None => current
      end
  end.

(** The list that [descend current parent_path] returns becomes [g] of
    itself. *)
Fixpoint mutate_list (g : tree → tree) (current : tree) (parent_path : path)
  : tree :=
  match parent_path with
  | [] => g current
  | index :: rest =>
      match position (length current) index with
      | Some n =>
          alter (λ t, match subtasks t with
                      | Some l => set_subtasks t (mutate_list g l rest)
                      | None => t
                      end) n current
      | None => current
      end
  end.

(** ** The operations *)

(** [add_task_to_path(text, path)], [path] being [None] for a main
    task. The store is saved whether or not the parent was found. *)
Definition add_task_to_path (s : app) (txt : string) (p : option path) : app :=
  if truthy (strip txt) then
    let new_task := Task (strip txt) (Some false) (Some []) in
    save_tasks
      (match p with
       | None => with_tree s (tasks_tree s ++ [new_task])
       | Some p =>
           match get_task_from_path (tasks_tree s) p with
           | Some _ =>
               with_tree s
                 (mutate_task
                    (λ parent_task,
                       set_subtasks parent_task
                         (get_subtasks parent_task ++ [new_task]))
                    (tasks_tree s) p)
           | None => s
           end
       end)
  else s.

(** [task['done'] = not task.get('done', False)] *)
Definition flip_done (t : task) : task := set_done t (negb (get_done t)).

(** [toggle_task(path)] *)
Definition toggle_task (s : app) (p : path) : app :=
  match get_task_from_path (tasks_tree s) p with
  | Some _ =>
      save_tasks
        (with_tree s
           (mutate_task flip_done (tasks_tree s) p))
  | None => s
  end.

(** [edit_task(path)]: the dialog opens when the task is found; [entry]
    is what the dialog ends with, [Some raw] for Save with [raw] in the
    entry field and [None] for Cancel. *)
Definition edit_task (s : app) (p : path) (entry : option string) : app :=
  match get_task_from_path (tasks_tree s) p with
  | None => s
  | Some _ =>
      match entry with
      | Some raw =>
          let new_text := strip raw in
          if truthy new_text then
            save_tasks
              (with_tree s
                 (mutate_task (λ t, set_text t new_text) (tasks_tree s) p))
          else s
      | None => s
      end
  end.

(** [list.pop(i)] for [0 <= i < len]. *)
Definition pop (task_index : Z) (l : tree) : tree :=
  delete (Z.to_nat task_index) l.

(** [delete_task(path)]; [confirmed] is the answer of
    [messagebox.askyesno]. *)
Definition delete_task (s : app) (p : path) (confirmed : bool) : app :=
  match get_task_from_path (tasks_tree s) p with
  | None => s
  | Some _ =>
      if confirmed then
        match get_parent_list_from_path (tasks_tree s) p with
        | Some parent_list =>
            let task_index := List.last p 0 in
            if bool_decide (0 ≤ task_index < Z.of_nat (length parent_list))
            then
              save_tasks
                (with_tree s
                   (mutate_list (pop task_index) (tasks_tree s)
                      (removelast p)))
            else s
        | None => s
        end
      else s
  end.

(** ** Traversal *)

(** One call of [create_task_widget(task, path, depth)]. *)
Record widget : Type :=
  Widget { w_task : task; w_path : path; w_depth : nat }.

(** [display_task_recursive(task, path, depth)]: the widget of the
    task, then those of [enumerate(task['subtasks'])] under
    [path + [i]] one level deeper. A missing or empty "subtasks" gives
    no further widget. *)
Fixpoint display_task_recursive (t : task) (p : path) (depth : nat)
  : list widget :=
  Widget t p depth ::
  match t with
  | Task _ _ (Some l) =>
      (fix each (l : tree) (i : Z) : list widget :=
         match l with
         | [] => []
         | subtask :: l' =>
             display_task_recursive subtask (p ++ [i]) (S depth)
             ++ each l' (i + 1)
         end) l 0
  | Task _ _ None => []
  end.

(** [for i, task in enumerate(l, start=i): display_task_recursive(task,
    parent + [i], depth)] *)
Fixpoint display_each (parent : path) (depth : nat) (l : tree) (i : Z)
  : list widget :=
  match l with
  | [] => []
  | t :: l' =>
      display_task_recursive t (parent ++ [i]) depth
      ++ display_each parent depth l' (i + 1)
  end.

(** The task widgets that [refresh_display] creates, in order. *)
Definition refresh_display (T : tree) : list widget :=
  display_each [] 0 T 0.

(** ** The entry field, the subtask dialog, start and close *)

(** The window: the store and the text in [self.task_entry]. *)
Record window : Type :=
  Window { store : app; task_entry : string }.

(** [add_main_task]: the stripped entry text, when it is not empty, goes
    to [add_task_to_path(text, None)] and the field is cleared
    ([task_entry.delete(0, tk.END)]); otherwise nothing happens and the
    field keeps what it holds. *)
Definition add_main_task (w : window) : window :=
  let txt := strip (task_entry w) in
  if truthy txt then Window (add_task_to_path (store w) txt None) ""
  else w.

(** [add_subtask(path)]: the dialog opens without looking the path up;
    [entry] is what it ends with, [Some raw] for Add with [raw] in the
    field and [None] for Cancel. *)
Definition add_subtask (s : app) (p : path) (entry : option string) : app :=
  match entry with
  | Some raw =>
      let txt := strip raw in
      if truthy txt then add_task_to_path s txt (Some p) else s
  | None => s
  end.

(** [__init__] as far as the store goes: [self.tasks_tree = []], then
    [self.load_tasks()]. *)
Definition startup (f : backing) (w : bool) : result app :=
  load_tasks (App [] f w).

(** [on_closing]: one more [save_tasks] before the window goes. *)
Definition on_closing (s : app) : app := save_tasks s.

(** ** Hover colours *)

(** The entries of [self.colors] that [lighten_color] reads. *)
Definition primary : string := "#3282b8".
Definition success : string := "#27ae60".
Definition warning : string := "#f39c12".
Definition danger : string := "#e74c3c".

(** The dict literal [color_map]; a later entry would replace an earlier
    one with the same key. *)
Definition color_map : gmap string string :=
  <[danger := "#ec5555"]>
    (<[warning := "#f5a623"]>
       (<[success := "#2ecc71"]> (<[primary := "#4a9fd1"]> ∅))).

(** [color_map.get(color, color)] *)
Definition lighten_color (color : string) : string :=
  default color (color_map !! color).

(** ** Notions of the statements *)

(** What a mutation does to the task it passes or reaches. *)
Definition mutate_step (f : task → task) (rest : path) : task → task :=
  match rest with
  | [] => f
  | _ => λ t, match subtasks t with
              | Some l => set_subtasks t (mutate_task f l rest)
              | None => t
              end
  end.

(** An index is out of range at its level: the walk reaches a list in
    which the next index addresses nothing. *)
Inductive out_of_range : tree → path → Prop :=
  | out_here current index rest :
      getitem current index = None →
      out_of_range current (index :: rest)
  | out_below current index t rest :
      getitem current index = Some t →
      out_of_range (get_subtasks t) rest →
      out_of_range current (index :: rest).

(** The task found from [t] by the indices [rel]: [t] itself for no
    index, else the walk through its subtasks. *)
Definition reach (t : task) (rel : path) : option task :=
  match rel with
  | [] => Some t
  | _ => walk (get_subtasks t) rel
  end.

(** The states of the file in which [load_tasks] starts from the empty
    tree: no file, a file of size 0, content on which [json.load] raises
    JSONDecodeError, and a file that disappears between the existence
    test and [open] (FileNotFoundError). *)
Definition starts_fresh (f : backing) : Prop :=
  f = Absent ∨ f = EmptyFile ∨ f = LoadFails JSONDecodeError
  ∨ f = OpenFails FileNotFoundError.

(** The task and every task below it have a "subtasks" list. *)
Fixpoint has_subtasks (t : task) : bool :=
  match t with
  | Task _ _ (Some l) => forallb has_subtasks l
  | Task _ _ None => false
  end.

Definition complete (T : tree) : bool := forallb has_subtasks T.

(** What a widget shows of its task: text, done flag, depth. *)
Definition label (w : widget) : string * option bool * nat :=
  (text (w_task w), done (w_task w), w_depth w).

(** The widgets outside the subtree at [p]. *)
Definition outside (p : path) (ws : list widget) : list widget :=
  filter (λ w, ¬ p `prefix_of` w_path w) ws.

(** Where the task at [q] is after the task at [p] has gone: a later
    sibling of [p], and what is below it, moves one index down. *)
Fixpoint moved (p q : path) : path :=
  match p, q with
  | [i], j :: q' => if bool_decide (i < j) then (j - 1) :: q' else q
  | i :: p', j :: q' => if bool_decide (i = j) then j :: moved p' q' else q
  | _, _ => q
  end.

(** The same parent path with every negative index replaced by the
    position it addresses. *)
Fixpoint canonical (current : tree) (parent_path : path) : path :=
  match parent_path with
  | [] => []
  | index :: rest =>
      match position (length current) index with
      | Some k =>
          Z.of_nat k
          :: match current !! k ≫= subtasks with
             | Some l => canonical l rest
             | None => rest
             end
      | None => parent_path
      end
  end.

(** A path whose last index is not negative, written without negative
    indices. *)
Definition straight (T : tree) (p : path) : path :=
  canonical T (removelast p) ++ [List.last p 0].

(** The text of the task is not empty and is what [strip] leaves of
    it. *)
Definition text_ok (t : task) : bool :=
  bool_decide (strip (text t) = text t) && truthy (text t).

(** [P] holds of the task and of every task below it. *)
Fixpoint every_task (P : task → bool) (t : task) : bool :=
  P t
  && match t with
     | Task _ _ (Some l) => forallb (every_task P) l
     | Task _ _ None => true
     end.

(** Every text in the tree is stripped and not empty. *)
Definition tidy (T : tree) : bool := forallb (every_task text_ok) T.


(** What a widget shows and where it is: label and path. *)
Definition face (w : widget) : string * option bool * nat * path :=
  (label w, w_path w).

(** The face of a widget when the task at [target] has become [f] of
    itself. *)
Definition retouched (f : task → task) (target : path) (w : widget)
  : string * option bool * nat * path :=
  if decide (w_path w = target)
  then face (Widget (f (w_task w)) (w_path w) (w_depth w))
  else face w.

(** The string starts with a character that is not a space, or is
    empty. *)
Definition clean_front (s : string) : Prop :=
  match s with
  | EmptyString => True
  | String c _ => isspace c = false
  end.

(** ** The scenario of the specification *)

Definition fresh : app := App [] Absent true.

Definition buy_milk : task := Task "Buy milk" (Some false) (Some []).
Definition two_percent : task := Task "2%" (Some false) (Some []).

(** C1: from the empty tree, adding "Buy milk" as a main task gives the
    one-task tree; adding "2%" under path [0] makes it the only subtask of
    that root; toggling path [0,0] sets the subtask's done flag; deleting
    path [0] (confirmed) leaves the empty tree. *)
Theorem C1_scenario :
  let s1 := add_task_to_path fresh "Buy milk" None in
  let s2 := add_task_to_path s1 "2%" (Some [0]) in
  let s3 := toggle_task s2 [0; 0] in
  let s4 := delete_task s3 [0] true in
  tasks_tree fresh = []
  ∧ tasks_tree s1 = [buy_milk]
  ∧ (subtasks <$> get_task_from_path (tasks_tree s2) [0])
    = Some (Some [two_percent])
  ∧ tasks_tree s2 = [Task "Buy milk" (Some false) (Some [two_percent])]
  ∧ (done <$> get_task_from_path (tasks_tree s3) [0; 0]) = Some (Some true)
  ∧ tasks_tree s3
    = [Task "Buy milk" (Some false) (Some [Task "2%" (Some true) (Some [])])]
  ∧ tasks_tree s4 = [].
Proof. vm_compute. repeat split. Qed.

(** ** Subscripts *)

Example getitem_front : getitem [10; 20; 30] 0 = Some 10.
Proof. reflexivity. Qed.

Example getitem_back : getitem [10; 20; 30] (-1) = Some 30.
Proof. reflexivity. Qed.

Example getitem_first_from_back : getitem [10; 20; 30] (-3) = Some 10.
Proof. reflexivity. Qed.

Example getitem_past_the_end : getitem [10; 20; 30] 3 = None.
Proof. reflexivity. Qed.

Example getitem_before_the_start : getitem [10; 20; 30] (-4) = None.
Proof. reflexivity. Qed.

Example strip_inner_blank_kept : strip "  Buy  milk " = "Buy  milk".
Proof. reflexivity. Qed.

Example strip_tab_newline : strip (String "009" (String "010" "")) = "".
Proof. reflexivity. Qed.

Lemma position_lt n index k : position n index = Some k → (k < n)%nat.
Proof. unfold position. repeat case_bool_decide; intros; simplify_eq; lia. Qed.

Lemma position_nonneg n index :
  0 ≤ index →
  position n index
  = if bool_decide (index < Z.of_nat n) then Some (Z.to_nat index) else None.
Proof. intros. unfold position. repeat case_bool_decide; try lia; done. Qed.

Lemma position_of_nat n k : (k < n)%nat → position n (Z.of_nat k) = Some k.
Proof.
  intros. rewrite position_nonneg by lia.
  rewrite bool_decide_true by lia. by rewrite Nat2Z.id.
Qed.

Lemma position_negative n index :
  index < 0 →
  position n index
  = if bool_decide (- Z.of_nat n ≤ index)
    then Some (Z.to_nat (Z.of_nat n + index)) else None.
Proof. intros. unfold position. repeat case_bool_decide; try lia; done. Qed.

Lemma getitem_position {A} (l : list A) index x :
  getitem l index = Some x
  ↔ ∃ k, position (length l) index = Some k ∧ l !! k = Some x.
Proof.
  unfold getitem. destruct (position _ _) as [k|]; simpl.
  - split; [by exists k | by intros (? & [= ->] & ?)].
  - split; [done | by intros (? & ? & ?)].
Qed.

Lemma getitem_None {A} (l : list A) index :
  getitem l index = None ↔ position (length l) index = None.
Proof.
  unfold getitem. destruct (position _ _) as [k|] eqn:E; simpl; [|done].
  apply position_lt, lookup_lt_is_Some in E as [x ->]. done.
Qed.

Lemma getitem_of_nat {A} (l : list A) k : getitem l (Z.of_nat k) = l !! k.
Proof.
  unfold getitem. destruct (decide (k < length l)%nat).
  - by rewrite position_of_nat.
  - rewrite position_nonneg, bool_decide_false by lia.
    symmetry. apply lookup_ge_None. lia.
Qed.

Lemma getitem_nil {A} index : getitem (@nil A) index = None.
Proof.
  apply getitem_None. unfold position. simpl.
  repeat case_bool_decide; (done || lia).
Qed.

Lemma getitem_minus_one {A} (l : list A) : getitem l (-1) = last l.
Proof.
  unfold getitem. rewrite position_negative by lia.
  destruct l as [|x l] using rev_ind; [done|].
  rewrite length_app, last_snoc. simpl.
  rewrite bool_decide_true by lia. simpl.
  replace (Z.to_nat _) with (length l + 0)%nat by lia.
  by rewrite lookup_app_r, Nat.add_comm, Nat.add_sub by lia.
Qed.

Lemma getitem_alter {A} (f : A → A) (l : list A) index k :
  position (length l) index = Some k →
  getitem (alter f k l) index = f <$> getitem l index.
Proof.
  intros E. unfold getitem. rewrite length_alter, E. simpl.
  by rewrite list_lookup_alter_eq.
Qed.

(** ** Walks *)

Lemma walk_cons current index rest :
  walk current (index :: rest)
  = match rest with
    | [] => getitem current index
    | _ => getitem current index ≫= λ t, walk (get_subtasks t) rest
    end.
Proof. destruct rest; simpl; [done|]. by destruct (getitem _ _). Qed.

Lemma mutate_task_cons f current index rest :
  mutate_task f current (index :: rest)
  = match position (length current) index with
    | Some n => alter (mutate_step f rest) n current
    | None => current
    end.
Proof. by destruct rest. Qed.

Lemma get_task_from_walk T p : get_task_from_path T p = walk T p.
Proof. by destruct p. Qed.

#[global] Arguments walk : simpl never.
#[global] Arguments mutate_task : simpl never.
#[global] Arguments mutate_list : simpl never.

Lemma get_subtasks_set t l : get_subtasks (set_subtasks t l) = l.
Proof. done. Qed.

Lemma get_subtasks_Some t l : subtasks t = Some l → get_subtasks t = l.
Proof. unfold get_subtasks. by intros ->. Qed.

Lemma get_subtasks_None t : subtasks t = None → get_subtasks t = [].
Proof. unfold get_subtasks. by intros ->. Qed.

Lemma walk_nil p : walk [] p = None.
Proof. destruct p as [|index rest]; [done|]. rewrite walk_cons, getitem_nil. by destruct rest. Qed.

(** A task that a walk passes through has its list of subtasks in the
    dict: the default of [.get('subtasks', [])] has no item to go on
    with. *)
Lemma walk_through_subtasks t p x :
  walk (get_subtasks t) p = Some x → subtasks t = Some (get_subtasks t).
Proof.
  destruct (subtasks t) as [l|] eqn:E.
  - by rewrite (get_subtasks_Some _ _ E).
  - by rewrite (get_subtasks_None _ E), walk_nil.
Qed.

(** The mutated task is the one the walk returns. *)
Lemma walk_mutate_task f p : ∀ T,
  walk (mutate_task f T p) p = f <$> walk T p.
Proof.
  induction p as [|index rest IH]; intros T; [done|].
  rewrite mutate_task_cons, !walk_cons.
  destruct (position _ _) as [k|] eqn:E.
  - rewrite getitem_alter by done.
    destruct rest as [|index' rest']; [done|].
    destruct (getitem T index) as [t|]; [|done]. simpl.
    destruct (subtasks t) as [l|] eqn:Es.
    + rewrite get_subtasks_set, (get_subtasks_Some _ _ Es). apply IH.
    + by rewrite (get_subtasks_None _ Es), walk_nil.
  - apply getitem_None in E. rewrite E. by destruct rest.
Qed.

Lemma mutate_task_compose f g p : ∀ T,
  mutate_task g (mutate_task f T p) p = mutate_task (g ∘ f) T p.
Proof.
  induction p as [|index rest IH]; intros T; [done|].
  rewrite (mutate_task_cons f), (mutate_task_cons (g ∘ f)).
  destruct (position (length T) index) as [k|] eqn:E.
  - rewrite mutate_task_cons, length_alter, E, list_alter_alter_eq.
    apply list_alter_ext; [|done]. intros t _.
    destruct rest as [|index' rest']; [done|]. simpl.
    destruct (subtasks t) as [l|] eqn:Es; simpl; [|by rewrite Es].
    unfold set_subtasks. simpl. by rewrite IH.
  - by rewrite mutate_task_cons, E.
Qed.

(** A mutation that gives the found task back as it was changes
    nothing. *)
Lemma mutate_task_same f p : ∀ T t,
  walk T p = Some t → f t = t → mutate_task f T p = T.
Proof.
  induction p as [|index rest IH]; intros T t Hw Hf; [done|].
  rewrite walk_cons in Hw. rewrite mutate_task_cons.
  destruct (getitem T index) as [c|] eqn:Ec; [|by destruct rest].
  apply getitem_position in Ec as (k & -> & Hk).
  apply list_eq. intros i. destruct (decide (i = k)) as [->|];
    [|by rewrite list_lookup_alter_ne].
  rewrite list_lookup_alter_eq, Hk. simpl. f_equal.
  destruct rest as [|index' rest']; simpl in *; [congruence|].
  pose proof (walk_through_subtasks _ _ _ Hw) as Es. rewrite Es.
  rewrite (IH _ t) by done. destruct c. simpl in *. by rewrite Es.
Qed.

Lemma get_parent_list_snoc T q index :
  get_parent_list_from_path T (q ++ [index]) = descend T q.
Proof.
  destruct q as [|j q]; [done|].
  change (get_parent_list_from_path T ((j :: q) ++ [index]))
    with (match q ++ [index] with
          | [] => Some T
          | _ => descend T (removelast ((j :: q) ++ [index]))
          end).
  rewrite removelast_last. by destruct q.
Qed.

(** On the list that the parent loop ends with, the last index of the
    path picks the task that the walk returns. *)
Lemma walk_snoc q : ∀ T L index,
  descend T q = Some L → walk T (q ++ [index]) = getitem L index.
Proof.
  induction q as [|j q IH]; intros T L index H; simpl in *.
  - by simplify_eq.
  - rewrite walk_cons. destruct (getitem T j) as [t|]; [|done].
    destruct (subtasks t) as [l|] eqn:Es; [|done].
    simpl. rewrite (get_subtasks_Some _ _ Es), (IH _ _ _ H).
    by destruct q.
Qed.

Lemma walk_snoc_inv q : ∀ T index x,
  walk T (q ++ [index]) = Some x →
  ∃ L, descend T q = Some L ∧ getitem L index = Some x.
Proof.
  induction q as [|j q IH]; intros T index x H; simpl in *.
  - by exists T.
  - rewrite walk_cons in H. destruct (getitem T j) as [t|]; [|by destruct q].
    assert (walk (get_subtasks t) (q ++ [index]) = Some x) as Hw
      by (by destruct q).
    rewrite (walk_through_subtasks _ _ _ Hw). by apply IH.
Qed.

Lemma tasks_tree_save s : tasks_tree (save_tasks s) = tasks_tree s.
Proof. unfold save_tasks. by destruct (writable s). Qed.


(** ** Paths that find nothing *)

(** C10: the empty path finds no task in any tree, and toggling,
    editing, deleting at it and adding under it leave the tree as it
    is. *)
Theorem C10_empty_path (s : app) :
  get_task_from_path (tasks_tree s) [] = None
  ∧ toggle_task s [] = s
  ∧ (∀ entry, edit_task s [] entry = s)
  ∧ (∀ confirmed, delete_task s [] confirmed = s)
  ∧ (∀ txt, tasks_tree (add_task_to_path s txt (Some [])) = tasks_tree s).
Proof.
  repeat split; try done. intros txt. unfold add_task_to_path.
  destruct (truthy _); [|done]. by rewrite tasks_tree_save.
Qed.

Lemma out_of_range_unresolved T p :
  out_of_range T p → get_task_from_path T p = None.
Proof.
  rewrite get_task_from_walk. induction 1 as [T i rest E|T i t rest E Hr IH];
    rewrite walk_cons, E; [by destruct rest|].
  destruct rest; [inversion Hr | done].
Qed.

Lemma unresolved_out_of_range p : ∀ T,
  p ≠ [] → get_task_from_path T p = None → out_of_range T p.
Proof.
  induction p as [|i rest IH]; intros T Hp H; [done|].
  rewrite get_task_from_walk, walk_cons in H.
  destruct (getitem T i) as [t|] eqn:E; [|by constructor].
  destruct rest as [|j rest']; [done|].
  eapply out_below; [done|]. apply IH; [done|].
  by rewrite get_task_from_walk.
Qed.

(** C8: a path that finds no task is empty or has an index out of range
    at its level; at such a path toggling, editing and deleting return
    without touching the store, and adding under it leaves the tree as it
    is; none of them raises. With one main task, index 5 finds nothing
    and toggling there changes nothing. *)
Theorem C8_unresolved_noop :
  (∀ s p, get_task_from_path (tasks_tree s) p = None →
     (p = [] ∨ out_of_range (tasks_tree s) p)
     ∧ toggle_task s p = s
     ∧ (∀ entry, edit_task s p entry = s)
     ∧ (∀ confirmed, delete_task s p confirmed = s)
     ∧ (∀ txt, tasks_tree (add_task_to_path s txt (Some p)) = tasks_tree s))
  ∧ (∀ t f w, get_task_from_path [t] [5] = None
              ∧ toggle_task (App [t] f w) [5] = App [t] f w).
Proof.
  split; [|done]. intros s p H. split.
  { destruct p as [|i p]; [by left|]. right.
    by apply unresolved_out_of_range. }
  unfold toggle_task, edit_task, delete_task, add_task_to_path.
  rewrite H. repeat split; try done.
  intros txt. destruct (truthy _); [|done]. by rewrite tasks_tree_save.
Qed.

Lemma C8_unresolved_noop_witness :
  out_of_range [buy_milk] [0; 0]
  ∧ toggle_task (App [buy_milk] Absent true) [0; 0]
    = App [buy_milk] Absent true
  ∧ tasks_tree (add_task_to_path (App [buy_milk] Absent true) "2%" (Some [5]))
    = [buy_milk].
Proof.
  destruct C8_unresolved_noop as [Hnoop _].
  destruct (Hnoop (App [buy_milk] Absent true) [0; 0] eq_refl)
    as ([Hnil|Hout] & Htoggle & _).
  - discriminate Hnil.
  - split; [exact Hout|]. split; [exact Htoggle|].
    destruct (Hnoop (App [buy_milk] Absent true) [5] eq_refl)
      as (_ & _ & _ & _ & Hadd).
    apply Hadd.
Defined.

(** ** Blank text *)

(** C6: text that strips to the empty string changes nothing, neither
    through [add_task_to_path] (main task or subtask) nor through the
    Save of the edit dialog. *)
Theorem C6_blank_text_rejected (s : app) (txt : string) :
  strip txt = "" →
  (∀ p : option path, add_task_to_path s txt p = s)
  ∧ (∀ p : path, edit_task s p (Some txt) = s).
Proof.
  intros H. split; intros p.
  - unfold add_task_to_path. by rewrite H.
  - unfold edit_task. rewrite H. by destruct (get_task_from_path _ _).
Qed.

Lemma C6_blank_text_rejected_witness :
  strip "" = "" ∧ strip "  " = ""
  ∧ add_task_to_path (App [buy_milk] Absent true) "" (Some [0])
    = App [buy_milk] Absent true
  ∧ edit_task (App [buy_milk] Absent true) [0] (Some "  ")
    = App [buy_milk] Absent true.
Proof.
  split; [reflexivity|]. split; [reflexivity|]. split.
  - apply (C6_blank_text_rejected (App [buy_milk] Absent true) "").
    reflexivity.
  - apply (C6_blank_text_rejected (App [buy_milk] Absent true) "  ").
    reflexivity.
Defined.

(** ** Toggling *)

Lemma get_done_flip t : get_done (flip_done t) = negb (get_done t).
Proof. done. Qed.

(** C7: at a path that finds a task, one toggle negates the done flag
    of that task and a second toggle gives the flag its first value
    back; when the task had a "done" key the whole tree is as before. *)
Theorem C7_toggle_involution (s : app) (p : path) (t : task) :
  get_task_from_path (tasks_tree s) p = Some t →
  get_done <$> get_task_from_path (tasks_tree (toggle_task s p)) p
  = Some (negb (get_done t))
  ∧ get_done
      <$> get_task_from_path (tasks_tree (toggle_task (toggle_task s p) p)) p
    = Some (get_done t)
  ∧ (is_Some (done t) →
     tasks_tree (toggle_task (toggle_task s p) p) = tasks_tree s).
Proof.
  intros H.
  assert (tasks_tree (toggle_task s p)
          = mutate_task flip_done (tasks_tree s) p) as E1.
  { unfold toggle_task. rewrite H. by rewrite tasks_tree_save. }
  assert (get_task_from_path (tasks_tree (toggle_task s p)) p
          = Some (flip_done t)) as H1.
  { rewrite E1, get_task_from_walk, walk_mutate_task.
    by rewrite <-get_task_from_walk, H. }
  assert (tasks_tree (toggle_task (toggle_task s p) p)
          = mutate_task (flip_done ∘ flip_done) (tasks_tree s) p) as E2.
  { unfold toggle_task at 1. rewrite H1, tasks_tree_save. simpl.
    rewrite E1. apply mutate_task_compose. }
  split; [by rewrite H1|]. split.
  - rewrite E2, get_task_from_walk, walk_mutate_task.
    rewrite <-get_task_from_walk, H. simpl.
    by rewrite !get_done_flip, negb_involutive.
  - intros [b Hb]. rewrite E2. apply (mutate_task_same _ _ _ t).
    + by rewrite <-get_task_from_walk.
    + destruct t as [x d l]. simpl in *. subst d.
      unfold flip_done, set_done, get_done. simpl.
      by rewrite negb_involutive.
Qed.

Lemma C7_toggle_involution_witness :
  get_done
    <$> get_task_from_path
          (tasks_tree
             (toggle_task (toggle_task (App [buy_milk] Absent true) [0]) [0]))
          [0]
  = Some false.
Proof.
  apply (C7_toggle_involution (App [buy_milk] Absent true) [0] buy_milk).
  reflexivity.
Defined.

(** ** Negative indices *)

(** C9: a last index of -1 finds the last task of a sibling list that
    has one, so [toggle_task([-1])] toggles the last main task: its done
    flag becomes the negation of what [.get('done', False)] read, text and
    subtasks stay, and the tasks before it are untouched; [delete_task]
    does nothing for a path whose last index is negative. *)
Theorem C9_negative_index :
  (∀ T q L, get_parent_list_from_path T (q ++ [-1]) = Some L → L ≠ [] →
     get_task_from_path T (q ++ [-1]) = last L
     ∧ is_Some (get_task_from_path T (q ++ [-1])))
  ∧ (∀ s T t, tasks_tree s = T ++ [t] →
       get_task_from_path (tasks_tree s) [-1] = Some t
       ∧ tasks_tree (toggle_task s [-1])
         = T ++ [Task (text t) (Some (negb (default false (done t))))
                   (subtasks t)]
       ∧ (done <$> get_task_from_path (tasks_tree (toggle_task s [-1])) [-1])
         = Some (Some (negb (default false (done t)))))
  ∧ (∀ s p confirmed, List.last p 0 < 0 → delete_task s p confirmed = s).
Proof.
  split; [|split].
  - intros T q L H HL. rewrite get_parent_list_snoc in H.
    rewrite get_task_from_walk, (walk_snoc _ _ _ _ H), getitem_minus_one.
    split; [done|]. destruct L as [|x L] using rev_ind; [done|].
    rewrite last_snoc. by eexists.
  - intros s T t E.
    assert (get_task_from_path (tasks_tree s) [-1] = Some t) as H.
    { rewrite E. unfold get_task_from_path, walk.
      by rewrite getitem_minus_one, last_snoc. }
    split; [done|].
    assert (tasks_tree (toggle_task s [-1])
            = T ++ [Task (text t) (Some (negb (default false (done t))))
                      (subtasks t)]) as E'.
    { unfold toggle_task. rewrite H, tasks_tree_save. simpl.
      rewrite E, mutate_task_cons, position_negative by lia.
      rewrite length_app. simpl. rewrite bool_decide_true by lia.
      replace (Z.to_nat _) with (length T + 0)%nat by lia.
      by rewrite alter_app_r. }
    split; [done|]. rewrite E'. unfold get_task_from_path, walk.
    by rewrite getitem_minus_one, last_snoc.
  - intros s p confirmed Hneg. unfold delete_task.
    destruct (get_task_from_path _ _); [|done].
    destruct confirmed; [|done].
    destruct (get_parent_list_from_path _ _); [|done].
    rewrite bool_decide_false; [done|lia].
Qed.

Lemma C9_negative_index_witness :
  get_task_from_path [buy_milk; two_percent] [-1] = Some two_percent
  ∧ tasks_tree (toggle_task (App [buy_milk; two_percent] Absent true) [-1])
    = [Task "Buy milk" (Some false) (Some []);
       Task "2%" (Some true) (Some [])]
  ∧ delete_task (App [buy_milk; two_percent] Absent true) [-1] true
    = App [buy_milk; two_percent] Absent true.
Proof.
  destruct C9_negative_index as (Hlast & Htoggle & Hdelete).
  split; [|split].
  - apply (Hlast [buy_milk; two_percent] [] [buy_milk; two_percent]);
      [reflexivity | discriminate].
  - destruct (Htoggle (App [buy_milk; two_percent] Absent true)
                [buy_milk] two_percent eq_refl) as (_ & Htree & _).
    exact Htree.
  - apply (Hdelete (App [buy_milk; two_percent] Absent true) [-1] true).
    reflexivity.
Defined.

(** ** Traversal and addressing *)

Lemma display_task_recursive_unfold t p depth :
  display_task_recursive t p depth
  = Widget t p depth :: display_each p (S depth) (get_subtasks t) 0.
Proof.
  destruct t as [s d [l|]]; [|done]. simpl. f_equal.
  change (get_subtasks (Task s d (Some l))) with l.
  generalize 0. induction l as [|c l IH]; intros i; [done|].
  simpl. by rewrite IH.
Qed.

#[global] Arguments display_task_recursive : simpl never.

Lemma elem_of_display_each parent depth w l : ∀ i,
  w ∈ display_each parent depth l i
  ↔ ∃ k c, l !! k = Some c
           ∧ w ∈ display_task_recursive c (parent ++ [i + Z.of_nat k]) depth.
Proof.
  induction l as [|t l IH]; intros i; simpl.
  - split; [by intros ?%elem_of_nil | by intros (k & c & ? & _)].
  - rewrite elem_of_app, IH. split.
    + intros [H|(k & c & Hk & H)].
      * exists 0%nat, t. by rewrite Z.add_0_r.
      * exists (S k), c. split; [done|].
        by replace (i + Z.of_nat (S k)) with (i + 1 + Z.of_nat k) by lia.
    + intros ([|k] & c & Hk & H); simpl in Hk.
      * left. simplify_eq. by rewrite Z.add_0_r in H.
      * right. exists k, c. split; [done|].
        by replace (i + 1 + Z.of_nat k) with (i + Z.of_nat (S k)) by lia.
Qed.

Lemma walk_reach l k c rel :
  l !! k = Some c → walk l (Z.of_nat k :: rel) = reach c rel.
Proof.
  intros H. rewrite walk_cons, getitem_of_nat, H. by destruct rel.
Qed.

(** Every widget below [t] carries the path of its task from [t]. *)
Lemma display_task_recursive_sound t : ∀ p depth w,
  w ∈ display_task_recursive t p depth →
  ∃ rel, w_path w = p ++ rel
         ∧ reach t rel = Some (w_task w)
         ∧ w_depth w = (depth + length rel)%nat
         ∧ Forall (λ i, 0 ≤ i) rel.
Proof.
  induction t as [s d|s d l IH] using task_nested_ind; intros p depth w;
    rewrite display_task_recursive_unfold, elem_of_cons.
  - intros [->|H]; [|by apply elem_of_nil in H].
    exists []. simpl. by rewrite app_nil_r, Nat.add_0_r.
  - intros [->|H].
    { exists []. simpl. by rewrite app_nil_r, Nat.add_0_r. }
    change (get_subtasks (Task s d (Some l))) with l in H.
    apply elem_of_display_each in H as (k & c & Hk & H).
    rewrite Forall_lookup in IH.
    apply (IH _ _ Hk) in H as (rel & Hp & Hr & Hd & Hn).
    exists (Z.of_nat k :: rel). repeat split.
    + by rewrite Hp, <-app_assoc.
    + change (walk l (Z.of_nat k :: rel) = Some (w_task w)).
      by rewrite (walk_reach _ _ c).
    + simpl. lia.
    + constructor; [lia|done].
Qed.

(** Conversely, every task found from [t] by indices that are not
    negative has its widget. *)
Lemma display_task_recursive_complete rel : ∀ t p depth x,
  Forall (λ i, 0 ≤ i) rel → reach t rel = Some x →
  Widget x (p ++ rel) (depth + length rel) ∈ display_task_recursive t p depth.
Proof.
  induction rel as [|i rel IH]; intros t p depth x Hrel Hx;
    rewrite display_task_recursive_unfold.
  - simpl in Hx. simplify_eq. rewrite app_nil_r, Nat.add_0_r. left.
  - apply Forall_cons in Hrel as [Hi Hrel]. right.
    change (walk (get_subtasks t) (i :: rel) = Some x) in Hx.
    rewrite <-(Z2Nat.id i) in Hx |- * by done.
    destruct (get_subtasks t !! Z.to_nat i) as [c|] eqn:Ec.
    + rewrite (walk_reach _ _ c) in Hx by done.
      apply elem_of_display_each. exists (Z.to_nat i), c. split; [done|].
      rewrite Z.add_0_l, cons_middle, app_assoc.
      replace (depth + length (Z.of_nat (Z.to_nat i) :: rel))%nat
        with (S depth + length rel)%nat by (simpl; lia).
      by apply IH.
    + rewrite walk_cons, getitem_of_nat, Ec in Hx. by destruct rel.
Qed.

Lemma refresh_display_complete T p x :
  Forall (λ i, 0 ≤ i) p → get_task_from_path T p = Some x →
  ∃ w, w ∈ refresh_display T ∧ w_path w = p ∧ w_task w = x.
Proof.
  intros Hp H. destruct p as [|i rel]; [done|].
  apply Forall_cons in Hp as [Hi Hrel].
  rewrite get_task_from_walk, <-(Z2Nat.id i) in H by done.
  destruct (T !! Z.to_nat i) as [c|] eqn:Ec.
  - rewrite (walk_reach _ _ c) in H by done.
    exists (Widget x (i :: rel) (0 + length rel)). split; [|done].
    apply elem_of_display_each. exists (Z.to_nat i), c. split; [done|].
    rewrite Z.add_0_l, Z2Nat.id by done.
    by apply (display_task_recursive_complete rel c ([] ++ [i]) 0%nat).
  - rewrite walk_cons, getitem_of_nat, Ec in H. by destruct rel.
Qed.

(** C2: every widget that the traversal creates carries a path at which
    [get_task_from_path] returns the task of that widget; main tasks are
    at depth 0 under a path of one index, and each level adds one index,
    none of them negative. *)
Theorem C2_render_resolve (T : tree) (w : widget) :
  w ∈ refresh_display T →
  get_task_from_path T (w_path w) = Some (w_task w)
  ∧ length (w_path w) = S (w_depth w)
  ∧ Forall (λ i, 0 ≤ i) (w_path w).
Proof.
  intros H. apply elem_of_display_each in H as (k & c & Hk & H).
  apply display_task_recursive_sound in H as (rel & Hp & Hr & Hd & Hn).
  simpl in Hp. rewrite Z.add_0_l in Hp. rewrite Hp, Hd. split; [|split].
  - by rewrite get_task_from_walk, (walk_reach _ _ c).
  - done.
  - constructor; [lia|done].
Qed.

Lemma C2_render_resolve_witness :
  get_task_from_path
    [buy_milk; Task "Tea" None (Some [two_percent; buy_milk])] [1; 0]
  = Some two_percent.
Proof.
  apply (C2_render_resolve
           [buy_milk; Task "Tea" None (Some [two_percent; buy_milk])]
           (Widget two_percent [1; 0] 1)).
  vm_compute. do 2 apply list_elem_of_further. apply list_elem_of_here.
Defined.

(** ** Loading *)

(** C3, as stated, fails: a file that exists and cannot be opened for
    reading raises PermissionError out of [load_tasks]. *)
Lemma C3_unreadable_file_raises :
  load_tasks (App [] (OpenFails PermissionError) true)
  = Raise PermissionError
  ∧ ¬ ∃ s', load_tasks (App [] (OpenFails PermissionError) true) = Ok s'.
Proof. split; [reflexivity|]. intros [s' H]. discriminate H. Qed.

(** Bytes that do not decode as text raise as well: UnicodeDecodeError is
    not among the caught exceptions. *)
Lemma undecodable_bytes_raise (T : tree) (w : bool) :
  load_tasks (App T (LoadFails UnicodeDecodeError) w)
  = Raise UnicodeDecodeError.
Proof. reflexivity. Qed.

(** So does every other exception that [json.load] or [open] raises and
    the [except] clause does not name: nesting beyond the recursion limit
    (RecursionError) and an overlong integer literal (ValueError) among
    them. *)
Lemma uncaught_errors_raise (T : tree) (w : bool) (e : exn) :
  load_catches e = false →
  load_tasks (App T (LoadFails e) w) = Raise e
  ∧ load_tasks (App T (OpenFails e) w) = Raise e.
Proof. unfold load_tasks. simpl. by intros ->. Qed.

(** What leaves [load_tasks] as an exception is an exception of [open]
    or [json.load] that the [except] clause does not name. *)
Lemma load_raises_only_uncaught (s : app) (e : exn) :
  load_tasks s = Raise e →
  load_catches e = false
  ∧ (data_file s = OpenFails e ∨ data_file s = LoadFails e).
Proof.
  unfold load_tasks.
  destruct (data_file s) as [|e'| |e'|T]; simpl; try discriminate;
    destruct (load_catches e') eqn:E; try discriminate;
    intros [= <-]; eauto.
Qed.

(** A document is loaded as it stands. *)
Lemma load_document (T0 T : tree) (w : bool) :
  load_tasks (App T0 (Document T) w) = Ok (App T (Document T) w).
Proof. reflexivity. Qed.

(** C3 (amended): when the file is absent, is empty, holds content on
    which [json.load] raises JSONDecodeError, or is gone at [open]
    (FileNotFoundError), [load_tasks] raises nothing and leaves the empty
    tree. *)
Theorem C3_load_starts_fresh (s : app) :
  starts_fresh (data_file s) → load_tasks s = Ok (with_tree s []).
Proof.
  unfold load_tasks. intros [H|[H|[H|H]]]; by rewrite H.
Qed.

Lemma C3_load_starts_fresh_witness :
  load_tasks (App [buy_milk] Absent true) = Ok (App [] Absent true)
  ∧ load_tasks (App [buy_milk] EmptyFile true) = Ok (App [] EmptyFile true)
  ∧ load_tasks (App [buy_milk] (LoadFails JSONDecodeError) true)
    = Ok (App [] (LoadFails JSONDecodeError) true).
Proof.
  split; [|split].
  - apply (C3_load_starts_fresh (App [buy_milk] Absent true)).
    left. reflexivity.
  - apply (C3_load_starts_fresh (App [buy_milk] EmptyFile true)).
    right. left. reflexivity.
  - apply (C3_load_starts_fresh
             (App [buy_milk] (LoadFails JSONDecodeError) true)).
    right. right. left. reflexivity.
Defined.

(** ** The "subtasks" key *)

Lemma has_subtasks_unfold t :
  has_subtasks t
  = match subtasks t with Some l => complete l | None => false end.
Proof. by destruct t as [s d [l|]]. Qed.

Lemma complete_lookup T :
  complete T = true ↔ ∀ k t, T !! k = Some t → has_subtasks t = true.
Proof.
  unfold complete. rewrite forallb_forall. split.
  - intros H k t Hk. apply H, list_elem_of_In, list_elem_of_lookup. eauto.
  - intros H t [k Hk]%list_elem_of_In%list_elem_of_lookup. eauto.
Qed.

Lemma complete_app T1 T2 :
  complete (T1 ++ T2) = true ↔ complete T1 = true ∧ complete T2 = true.
Proof. unfold complete. by rewrite forallb_app, andb_true_iff. Qed.

Lemma complete_alter f k T :
  complete T = true →
  (∀ t, T !! k = Some t → has_subtasks t = true → has_subtasks (f t) = true) →
  complete (alter f k T) = true.
Proof.
  rewrite !complete_lookup. intros H Hf i t.
  destruct (decide (i = k)) as [->|].
  - rewrite list_lookup_alter_eq. destruct (T !! k) as [c|] eqn:E; [|done].
    intros [= <-]. eauto.
  - rewrite list_lookup_alter_ne by done. eauto.
Qed.

Lemma complete_delete k T : complete T = true → complete (delete k T) = true.
Proof.
  rewrite !complete_lookup. intros H i t Hi.
  destruct (decide (i < k)%nat).
  - rewrite list_lookup_delete_lt in Hi by done. eauto.
  - rewrite list_lookup_delete_ge in Hi by lia. eauto.
Qed.

Lemma complete_mutate_task f p :
  (∀ t, has_subtasks t = true → has_subtasks (f t) = true) →
  ∀ T, complete T = true → complete (mutate_task f T p) = true.
Proof.
  intros Hf. induction p as [|index rest IH]; intros T H; [done|].
  rewrite mutate_task_cons. destruct (position _ _) as [k|]; [|done].
  apply complete_alter; [done|]. intros t _ Ht.
  destruct rest as [|j rest']; simpl; [by apply Hf|].
  rewrite has_subtasks_unfold in Ht.
  destruct (subtasks t) as [l|] eqn:E; [|done].
  rewrite has_subtasks_unfold. simpl. by apply IH.
Qed.

Lemma complete_mutate_list g q :
  (∀ l, complete l = true → complete (g l) = true) →
  ∀ T, complete T = true → complete (mutate_list g T q) = true.
Proof.
  intros Hg. induction q as [|index rest IH]; intros T H; [by apply Hg|].
  unfold mutate_list; fold mutate_list.
  destruct (position _ _) as [k|]; [|done].
  apply complete_alter; [done|]. intros t _ Ht.
  rewrite has_subtasks_unfold in Ht.
  destruct (subtasks t) as [l|] eqn:E; [|done].
  rewrite has_subtasks_unfold. simpl. by apply IH.
Qed.

(** C4, as stated, fails: a saved task without the "subtasks" key is
    loaded without it. *)
Lemma C4_load_keeps_missing_subtasks :
  ∃ s', load_tasks (App [] (Document [Task "Tea" (Some false) None]) true)
        = Ok s'
        ∧ get_task_from_path (tasks_tree s') [0]
          = Some (Task "Tea" (Some false) None)
        ∧ complete (tasks_tree s') = false.
Proof. eexists. split; [reflexivity|]. split; reflexivity. Qed.

(** C4 (amended): the tree that [load_tasks] leaves has a "subtasks"
    list in every task when the loaded document has (the empty tree of
    an absent, empty or undecoded file always has), and the four
    operations keep it so; a task made by [add_task_to_path] comes with
    its list. *)
Theorem C4_subtasks_invariant :
  (∀ s s', load_tasks s = Ok s' →
     complete (tasks_tree s')
     = match data_file s with Document T => complete T | _ => true end)
  ∧ (∀ s, complete (tasks_tree s) = true →
       (∀ txt p, complete (tasks_tree (add_task_to_path s txt p)) = true)
       ∧ (∀ p, complete (tasks_tree (toggle_task s p)) = true)
       ∧ (∀ p entry, complete (tasks_tree (edit_task s p entry)) = true)
       ∧ (∀ p confirmed,
            complete (tasks_tree (delete_task s p confirmed)) = true)).
Proof.
  split.
  - intros s s'. unfold load_tasks.
    destruct (data_file s) as [|e|  |e|T]; simpl;
      try destruct (load_catches e); try discriminate;
      by intros [= <-].
  - intros s H. repeat split.
    + intros txt p. unfold add_task_to_path.
      destruct (truthy _); [|done]. rewrite tasks_tree_save.
      destruct p as [p|]; simpl.
      * destruct (get_task_from_path _ _) as [found|]; simpl; [|done].
        apply complete_mutate_task; [|done]. intros t Ht.
        rewrite has_subtasks_unfold in *. simpl.
        apply complete_app. split; [|done].
        unfold get_subtasks. by destruct (subtasks t).
      * by apply complete_app.
    + intros p. unfold toggle_task.
      destruct (get_task_from_path _ _) as [found|]; [|done].
      rewrite tasks_tree_save. simpl.
      apply complete_mutate_task; [|done]. intros t.
      by rewrite !has_subtasks_unfold.
    + intros p entry. unfold edit_task.
      destruct (get_task_from_path _ _) as [found|]; [|done].
      destruct entry as [raw|]; [|done].
      destruct (truthy _); [|done]. rewrite tasks_tree_save. simpl.
      apply complete_mutate_task; [|done]. intros t.
      by rewrite !has_subtasks_unfold.
    + intros p confirmed. unfold delete_task.
      destruct (get_task_from_path _ _) as [found|]; [|done].
      destruct confirmed; [|done].
      destruct (get_parent_list_from_path _ _) as [parent_list|]; [|done].
      case_bool_decide; [|done]. rewrite tasks_tree_save. simpl.
      apply complete_mutate_list; [|done]. intros l. apply complete_delete.
Qed.

Lemma C4_subtasks_invariant_witness :
  complete
    (tasks_tree
       (add_task_to_path (App [buy_milk] Absent true) "2%" (Some [0])))
  = true
  ∧ complete (tasks_tree (delete_task (App [buy_milk] Absent true) [0] true))
    = true
  ∧ complete (tasks_tree (App [] Absent true)) = true.
Proof.
  destruct C4_subtasks_invariant as [Hload Hops].
  destruct (Hops (App [buy_milk] Absent true) eq_refl)
    as (Hadd & _ & _ & Hdelete).
  split; [apply Hadd|]. split; [apply Hdelete|].
  apply (Hload (App [buy_milk] Absent true) (App [] Absent true)).
  reflexivity.
Defined.

(** ** Deleting *)

Section filter_all_or_none.
Context {A : Type} (P : A → Prop) `{!∀ x, Decision (P x)}.

Lemma filter_all (l : list A) : (∀ x, x ∈ l → P x) → filter P l = l.
Proof.
  induction l as [|x l IH]; intros Hl; [done|].
  rewrite filter_cons_True by (apply Hl; left).
  f_equal. apply IH. intros y Hy. apply Hl. by right.
Qed.

Lemma filter_none (l : list A) : (∀ x, x ∈ l → ¬ P x) → filter P l = [].
Proof.
  induction l as [|x l IH]; intros Hl; [done|].
  rewrite filter_cons_False by (apply Hl; left).
  apply IH. intros y Hy. apply Hl. by right.
Qed.
End filter_all_or_none.

Lemma outside_app p ws1 ws2 :
  outside p (ws1 ++ ws2) = outside p ws1 ++ outside p ws2.
Proof. apply filter_app. Qed.

Lemma display_each_app parent depth l1 l2 : ∀ i,
  display_each parent depth (l1 ++ l2) i
  = display_each parent depth l1 i
    ++ display_each parent depth l2 (i + Z.of_nat (length l1)).
Proof.
  induction l1 as [|t l1 IH]; intros i; simpl.
  - by rewrite Z.add_0_r.
  - rewrite IH, <-app_assoc. do 3 f_equal. lia.
Qed.

Lemma display_task_recursive_under t p depth w :
  w ∈ display_task_recursive t p depth → p `prefix_of` w_path w.
Proof.
  intros (rel & -> & _)%display_task_recursive_sound. by apply prefix_app_r.
Qed.

(** Below a sibling with another index nothing lies under [p]. *)
Lemma outside_other_siblings parent depth l i target r :
  (∀ k, (k < length l)%nat → i + Z.of_nat k ≠ target) →
  outside (parent ++ target :: r) (display_each parent depth l i)
  = display_each parent depth l i.
Proof.
  intros Hne. apply filter_all. intros w (k & c & Hk & Hw)%elem_of_display_each.
  apply display_task_recursive_under in Hw as [rel' Hw]. rewrite Hw.
  rewrite <-app_assoc. intros Hpre%prefix_app_inv.
  apply prefix_cons_inv_1 in Hpre.
  apply (Hne k); [by eapply lookup_lt_Some | done].
Qed.

(** The labels do not depend on where the traversal starts counting. *)
Lemma label_display_task_recursive t : ∀ p p' depth,
  label <$> display_task_recursive t p depth
  = label <$> display_task_recursive t p' depth.
Proof.
  induction t as [s d|s d l IH] using task_nested_ind; intros p p' depth;
    rewrite !display_task_recursive_unfold; [done|].
  rewrite !fmap_cons. f_equal.
  change (get_subtasks (Task s d (Some l))) with l.
  generalize 0 at 1 as i. generalize 0 as i'. generalize (S depth) as n.
  induction IH as [|c l Hc _ IHl]; intros n i' i; [done|].
  simpl. rewrite !fmap_app. f_equal; [apply Hc | apply IHl].
Qed.

Lemma label_display_each parent parent' depth l : ∀ i i',
  label <$> display_each parent depth l i
  = label <$> display_each parent' depth l i'.
Proof.
  induction l as [|t l IH]; intros i i'; [done|].
  simpl. rewrite !fmap_app. f_equal; [|apply IH].
  apply label_display_task_recursive.
Qed.

(** A task found at an index that is not negative splits its list. *)
Lemma getitem_split {A} (l : list A) index x :
  0 ≤ index → getitem l index = Some x →
  ∃ l1 l2, l = l1 ++ x :: l2 ∧ index = Z.of_nat (length l1)
           ∧ position (length l) index = Some (length l1).
Proof.
  intros Hi (k & Hk & Hx)%getitem_position.
  rewrite position_nonneg in Hk by done. case_bool_decide; [|done].
  simplify_eq. exists (take (Z.to_nat index) l), (drop (S (Z.to_nat index)) l).
  rewrite take_drop_middle by done. rewrite length_take.
  pose proof (lookup_lt_Some _ _ _ Hx).
  replace (Z.to_nat index `min` length l)%nat with (Z.to_nat index) by lia.
  rewrite position_nonneg, bool_decide_true by lia. split; [done|]. split; [lia|done].
Qed.

Lemma mutate_list_cons_split g l1 t l2 rest :
  mutate_list g (l1 ++ t :: l2) (Z.of_nat (length l1) :: rest)
  = l1 ++ match subtasks t with
          | Some l => set_subtasks t (mutate_list g l rest)
          | None => t
          end :: l2.
Proof.
  unfold mutate_list at 1; fold mutate_list.
  rewrite position_of_nat by (rewrite length_app; simpl; lia).
  rewrite <-(Nat.add_0_r (length l1)) at 1. by rewrite alter_app_r.
Qed.

Lemma display_each_split parent depth l1 t l2 :
  display_each parent depth (l1 ++ t :: l2) 0
  = display_each parent depth l1 0
    ++ display_task_recursive t (parent ++ [Z.of_nat (length l1)]) depth
    ++ display_each parent depth l2 (Z.of_nat (length l1) + 1).
Proof. rewrite display_each_app. simpl. by rewrite !Z.add_0_l. Qed.

Lemma outside_split parent depth l1 t l2 r :
  outside (parent ++ Z.of_nat (length l1) :: r)
    (display_each parent depth (l1 ++ t :: l2) 0)
  = display_each parent depth l1 0
    ++ outside (parent ++ Z.of_nat (length l1) :: r)
         (display_task_recursive t (parent ++ [Z.of_nat (length l1)]) depth)
    ++ display_each parent depth l2 (Z.of_nat (length l1) + 1).
Proof.
  rewrite display_each_split, !outside_app.
  rewrite !outside_other_siblings; [done | intros; lia | intros; lia].
Qed.

(** The widgets after a deletion show what the widgets outside the
    deleted subtree showed before. *)
Lemma outside_after_delete q : ∀ T parent depth index L node,
  Forall (λ i, 0 ≤ i) q → 0 ≤ index →
  descend T q = Some L → getitem L index = Some node →
  label <$> display_each parent depth (mutate_list (pop index) T q) 0
  = label <$> outside (parent ++ q ++ [index]) (display_each parent depth T 0).
Proof.
  induction q as [|j q IH]; intros T parent depth index L node Hq Hi HL Hn.
  - simpl in HL. simplify_eq.
    apply getitem_split in Hn as (l1 & l2 & -> & -> & _); [|done].
    change (mutate_list ?g ?l []) with (g l). unfold pop.
    rewrite Nat2Z.id, delete_middle. simpl. rewrite outside_split.
    unfold outside at 1. rewrite filter_none.
    + rewrite display_each_app, !fmap_app. simpl. f_equal.
      apply label_display_each.
    + intros w Hw%display_task_recursive_under. tauto.
  - apply Forall_cons in Hq as [Hj Hq]. simpl in HL.
    destruct (getitem T j) as [t|] eqn:Et; [|done].
    destruct (subtasks t) as [l|] eqn:El; [|done].
    apply getitem_split in Et as (l1 & l2 & -> & -> & _); [|done].
    rewrite mutate_list_cons_split, El, display_each_split.
    rewrite <-app_comm_cons, outside_split, !fmap_app. f_equal. f_equal.
    rewrite !display_task_recursive_unfold.
    rewrite get_subtasks_set, (get_subtasks_Some _ _ El).
    unfold outside. rewrite filter_cons_True.
    + rewrite !fmap_cons. f_equal.
      rewrite (IH l (parent ++ [Z.of_nat (length l1)]) (S depth) index L node)
        by done.
      by rewrite <-app_assoc.
    + simpl. intros Hpre%prefix_length.
      rewrite !length_app, !length_cons, length_app in Hpre.
      simpl in Hpre. lia.
Qed.

Lemma getitem_nonneg {A} (l : list A) index :
  0 ≤ index → getitem l index = l !! Z.to_nat index.
Proof. intros. by rewrite <-getitem_of_nat, Z2Nat.id. Qed.

(** The mutated list is the one the parent loop returns. *)
Lemma descend_mutate_list g q : ∀ T L,
  descend T q = Some L → descend (mutate_list g T q) q = Some (g L).
Proof.
  induction q as [|j q IH]; intros T L H; simpl in H.
  - by simplify_eq.
  - destruct (getitem T j) as [t|] eqn:Et; [|done].
    destruct (subtasks t) as [l|] eqn:El; [|done].
    pose proof Et as (k & Hk & _)%getitem_position.
    unfold mutate_list; fold mutate_list. rewrite Hk. simpl.
    rewrite getitem_alter, Et by done. simpl. rewrite El. simpl.
    by apply IH.
Qed.

Lemma moved_cons i p j q :
  p ≠ [] →
  moved (i :: p) (j :: q)
  = if bool_decide (i = j) then j :: moved p q else j :: q.
Proof. by destruct p. Qed.

Lemma moved_nil p q : q ≠ [] → moved p q ≠ [].
Proof.
  destruct p as [|i [|i' p]], q as [|j q]; simpl; try done;
    by case_bool_decide.
Qed.

(** A task that is neither in the deleted subtree nor above it is
    found, as it was, at its moved path. *)
Lemma walk_after_delete q : ∀ T index L node r,
  Forall (λ i, 0 ≤ i) q → 0 ≤ index →
  descend T q = Some L → getitem L index = Some node →
  Forall (λ i, 0 ≤ i) r →
  ¬ (q ++ [index]) `prefix_of` r → ¬ r `prefix_of` (q ++ [index]) →
  walk (mutate_list (pop index) T q) (moved (q ++ [index]) r) = walk T r.
Proof.
  induction q as [|j q IH]; intros T index L node r Hq Hi HL Hn Hr Hout Hup;
    (destruct r as [|j' r]; [by destruct Hup; apply prefix_nil|]);
    apply Forall_cons in Hr as [Hj' Hr].
  - change (mutate_list ?g ?l []) with (g l). unfold pop.
    assert (index ≠ j') as Hne.
    { intros ->. apply Hout. by apply prefix_cons, prefix_nil. }
    assert (getitem (delete (Z.to_nat index) T)
              (if bool_decide (index < j') then j' - 1 else j')
            = getitem T j') as Hg.
    { case_bool_decide.
      - rewrite !getitem_nonneg by lia.
        rewrite list_lookup_delete_ge by lia. f_equal. lia.
      - rewrite !getitem_nonneg by lia.
        rewrite list_lookup_delete_lt by lia. done. }
    simpl. case_bool_decide; rewrite !walk_cons, Hg; done.
  - apply Forall_cons in Hq as [Hj Hq]. simpl in HL.
    destruct (getitem T j) as [t|] eqn:Et; [|done].
    destruct (subtasks t) as [l|] eqn:El; [|done].
    pose proof Et as (k & Hk & Htk)%getitem_position.
    unfold mutate_list; fold mutate_list. rewrite Hk.
    rewrite <-app_comm_cons, moved_cons by (by destruct q).
    case_bool_decide as Hjj.
    + subst j'. destruct r as [|j'' r].
      { destruct Hup. by apply prefix_cons, prefix_nil. }
      pose proof (moved_nil (q ++ [index]) (j'' :: r)) as Hm.
      rewrite !walk_cons, getitem_alter, Et by done. simpl.
      destruct (moved _ _) as [|m ms] eqn:Em; [by destruct Hm|].
      rewrite El, get_subtasks_set, (get_subtasks_Some _ _ El), <-Em.
      apply (IH l index L node); try done.
      * intros Hp. apply Hout. by apply prefix_cons.
      * intros Hp. apply Hup. by apply prefix_cons.
    + assert (getitem (alter (λ t0, match subtasks t0 with
                                    | Some l0 =>
                                        set_subtasks t0
                                          (mutate_list (pop index) l0 q)
                                    | None => t0
                                    end) k T) j' = getitem T j') as Hg.
      { rewrite !getitem_nonneg by lia. apply list_lookup_alter_ne.
        rewrite position_nonneg in Hk by done. case_bool_decide; [|done].
        simplify_eq. lia. }
      by rewrite !walk_cons, Hg.
Qed.

(** Along a parent path that ends in a list, the canonical path leads
    to the same list and the same mutation. *)
Lemma canonical_descend q : ∀ T L,
  descend T q = Some L →
  Forall (λ i, 0 ≤ i) (canonical T q)
  ∧ descend T (canonical T q) = Some L
  ∧ ∀ g, mutate_list g T (canonical T q) = mutate_list g T q.
Proof.
  induction q as [|j q IH]; intros T L H; simpl in H.
  - by repeat split.
  - destruct (getitem T j) as [t|] eqn:Et; [|done].
    destruct (subtasks t) as [l|] eqn:El; [|done].
    pose proof Et as (k & Hk & Htk)%getitem_position.
    destruct (IH l L H) as (Hnn & Hd & Hm).
    pose proof (lookup_lt_Some _ _ _ Htk) as Hlt.
    unfold canonical; fold canonical. rewrite Hk, Htk. simpl. rewrite El.
    split; [|split].
    + constructor; [lia|done].
    + simpl. rewrite getitem_of_nat, Htk, El. done.
    + intros g. unfold mutate_list; fold mutate_list.
      rewrite position_of_nat, Hk by done.
      apply list_alter_ext; [|done]. intros x Hx. simplify_eq.
      by rewrite El, Hm.
Qed.

Lemma canonical_nonneg q : ∀ T L,
  Forall (λ i, 0 ≤ i) q → descend T q = Some L → canonical T q = q.
Proof.
  induction q as [|j q IH]; intros T L Hq H; [done|].
  apply Forall_cons in Hq as [Hj Hq]. simpl in *.
  destruct (getitem T j) as [t|] eqn:Et; [|done].
  destruct (subtasks t) as [l|] eqn:El; [|done].
  apply getitem_position in Et as (k & Hk & Htk). rewrite Hk, Htk. simpl.
  rewrite El, (IH l L) by done.
  rewrite position_nonneg in Hk by done. case_bool_decide; [|done].
  simplify_eq. by rewrite Z2Nat.id.
Qed.

(** A path without negative indices that finds a task is its own
    straight form. *)
Lemma straight_nonneg T p node :
  Forall (λ i, 0 ≤ i) p → get_task_from_path T p = Some node →
  straight T p = p.
Proof.
  intros Hp H. destruct p as [|index q _] using rev_ind; [done|].
  apply Forall_app in Hp as [Hq _].
  rewrite get_task_from_walk in H.
  apply walk_snoc_inv in H as (L & HL & _).
  unfold straight. by rewrite removelast_last, last_last, (canonical_nonneg q T L).
Qed.

(** The deletion at any path that finds a task and ends in an index
    that is not negative, told with the straight form of the path: the
    task leaves its sibling list, the widgets outside its subtree show
    what they showed, and the tasks neither in the subtree nor above it
    are found unchanged at their moved paths. *)
Lemma delete_subtree_straight (s : app) (p : path) (node : task) :
  0 ≤ List.last p 0 →
  get_task_from_path (tasks_tree s) p = Some node →
  ∃ siblings,
    get_parent_list_from_path (tasks_tree s) p = Some siblings
    ∧ getitem siblings (List.last p 0) = Some node
    ∧ get_parent_list_from_path (tasks_tree (delete_task s p true)) p
      = Some (pop (List.last p 0) siblings)
    ∧ S (length (pop (List.last p 0) siblings)) = length siblings
    ∧ label <$> refresh_display (tasks_tree (delete_task s p true))
      = label
          <$> outside (straight (tasks_tree s) p)
                (refresh_display (tasks_tree s))
    ∧ ∀ q, Forall (λ i, 0 ≤ i) q →
           ¬ straight (tasks_tree s) p `prefix_of` q →
           ¬ q `prefix_of` straight (tasks_tree s) p →
           get_task_from_path (tasks_tree (delete_task s p true))
             (moved (straight (tasks_tree s) p) q)
           = get_task_from_path (tasks_tree s) q.
Proof.
  intros Hi Hnode.
  destruct p as [|index q _] using rev_ind; [done|].
  unfold straight. rewrite last_last, removelast_last in *.
  pose proof Hnode as Hw. rewrite get_task_from_walk in Hw.
  apply walk_snoc_inv in Hw as (L & HL & Hn).
  destruct (canonical_descend q _ L HL) as (Hq & HcL & Hm).
  assert (0 ≤ index < Z.of_nat (length L)) as Hrange.
  { apply getitem_position in Hn as (k & Hk & _).
    rewrite position_nonneg in Hk by done. by case_bool_decide. }
  assert (tasks_tree (delete_task s (q ++ [index]) true)
          = mutate_list (pop index) (tasks_tree s) q) as E.
  { unfold delete_task.
    rewrite Hnode, get_parent_list_snoc, HL, last_last, removelast_last.
    by rewrite bool_decide_true, tasks_tree_save. }
  rewrite E, !get_parent_list_snoc.
  exists L. split; [done|]. split; [done|].
  split; [by apply descend_mutate_list|]. split; [|split].
  - unfold pop. rewrite length_delete; [lia|].
    apply lookup_lt_is_Some. lia.
  - rewrite <-Hm.
    apply (outside_after_delete (canonical (tasks_tree s) q) _ [] 0%nat
             index L node); done.
  - intros r Hr Hout Hup. rewrite !get_task_from_walk, <-Hm.
    by apply (walk_after_delete (canonical (tasks_tree s) q) _ index L node).
Qed.

(** C5: for a path of the data model (no negative index) that finds a
    task, a confirmed [delete_task] removes the subtree at that path and
    nothing else: the task leaves its sibling list, which gets one
    shorter; the widgets afterwards show, in the same order and at the
    same depths, the text and done flag of exactly the widgets that were
    not in the subtree of the path; and every task that was neither in
    that subtree nor above it is found unchanged, subtasks included, at
    its moved path. *)
Theorem C5_delete_subtree (s : app) (p : path) (node : task) :
  Forall (λ i, 0 ≤ i) p →
  get_task_from_path (tasks_tree s) p = Some node →
  ∃ siblings,
    get_parent_list_from_path (tasks_tree s) p = Some siblings
    ∧ getitem siblings (List.last p 0) = Some node
    ∧ get_parent_list_from_path (tasks_tree (delete_task s p true)) p
      = Some (pop (List.last p 0) siblings)
    ∧ S (length (pop (List.last p 0) siblings)) = length siblings
    ∧ label <$> refresh_display (tasks_tree (delete_task s p true))
      = label <$> outside p (refresh_display (tasks_tree s))
    ∧ ∀ q, Forall (λ i, 0 ≤ i) q →
           ¬ p `prefix_of` q → ¬ q `prefix_of` p →
           get_task_from_path (tasks_tree (delete_task s p true)) (moved p q)
           = get_task_from_path (tasks_tree s) q.
Proof.
  intros Hp Hnode.
  assert (0 ≤ List.last p 0) as Hlast.
  { destruct p as [|index q _] using rev_ind; [done|].
    rewrite last_last. by apply Forall_app in Hp as [_ [? _]%Forall_cons]. }
  pose proof (delete_subtree_straight s p node Hlast Hnode) as H.
  by rewrite (straight_nonneg _ p node Hp Hnode) in H.
Qed.

Lemma C5_delete_subtree_witness :
  ∃ siblings,
    get_parent_list_from_path
      [buy_milk; Task "Tea" None (Some [two_percent; buy_milk])] [1; 0]
    = Some siblings
    ∧ getitem siblings 0 = Some two_percent
    ∧ S (length (pop 0 siblings)) = length siblings
    ∧ tasks_tree
        (delete_task
           (App [buy_milk; Task "Tea" None (Some [two_percent; buy_milk])]
              Absent true)
           [1; 0] true)
      = [buy_milk; Task "Tea" None (Some [buy_milk])].
Proof.
  destruct (C5_delete_subtree
              (App [buy_milk; Task "Tea" None (Some [two_percent; buy_milk])]
                 Absent true)
              [1; 0] two_percent)
    as (siblings & H1 & H2 & _ & H4 & _).
  - repeat constructor; discriminate.
  - reflexivity.
  - exists siblings. split; [exact H1|]. split; [exact H2|].
    split; [exact H4|reflexivity].
Defined.

(** ** Stripping *)

Lemma string_app_cons c (s t : string) :
  String.app (String c s) t = String c (String.app s t).
Proof. reflexivity. Qed.

Lemma string_app_nil_r (s : string) : String.app s "" = s.
Proof. induction s as [|c s IH]; [done|]. by rewrite string_app_cons, IH. Qed.

Lemma string_app_assoc (s1 s2 s3 : string) :
  String.app (String.app s1 s2) s3 = String.app s1 (String.app s2 s3).
Proof. induction s1 as [|c s1 IH]; [done|]. by rewrite !string_app_cons, IH. Qed.

Lemma rev_app_spec s : ∀ acc,
  String.rev_app s acc = String.app (String.rev s) acc.
Proof.
  unfold String.rev. induction s as [|c s IH]; intros acc; simpl; [done|].
  by rewrite (IH (String c acc)), (IH (String c "")), string_app_assoc.
Qed.

Lemma rev_app_twice s : ∀ a b,
  String.rev_app (String.rev_app s a) b = String.rev_app a (String.app s b).
Proof.
  induction s as [|c s IH]; intros a b; [done|].
  rewrite string_app_cons. simpl. by rewrite IH.
Qed.

Lemma string_rev_involutive s : String.rev (String.rev s) = s.
Proof.
  unfold String.rev. rewrite rev_app_twice. simpl. by rewrite string_app_nil_r.
Qed.

Lemma string_rev_app s1 s2 :
  String.rev (String.app s1 s2) = String.app (String.rev s2) (String.rev s1).
Proof.
  rewrite <-rev_app_spec. unfold String.rev. generalize "".
  induction s1 as [|c s1 IH]; intros acc; [done|].
  rewrite string_app_cons. simpl. by rewrite IH.
Qed.

Lemma lstrip_split s : ∃ ws, s = String.app ws (lstrip s).
Proof.
  induction s as [|c s [ws IH]]; [by exists ""|]. simpl.
  destruct (isspace c); [|by exists ""].
  exists (String c ws). by rewrite string_app_cons, <-IH.
Qed.

Lemma lstrip_clean s : clean_front (lstrip s).
Proof.
  induction s as [|c s IH]; simpl; [done|].
  by destruct (isspace c) eqn:E; [|simpl].
Qed.

Lemma lstrip_of_clean s : clean_front s → lstrip s = s.
Proof. destruct s as [|c s]; simpl; [done|]. by intros ->. Qed.

(** What is left after stripping the end is the front part of the
    string. *)
Lemma rstrip_front u :
  ∃ tail, u = String.app (String.rev (lstrip (String.rev u))) tail.
Proof.
  destruct (lstrip_split (String.rev u)) as [ws E].
  exists (String.rev ws).
  by rewrite <-string_rev_app, <-E, string_rev_involutive.
Qed.

Lemma strip_clean_front s : clean_front (strip s).
Proof.
  unfold strip. pose proof (lstrip_clean s) as Hc.
  destruct (rstrip_front (lstrip s)) as [tail E].
  destruct (String.rev (lstrip (String.rev (lstrip s)))) as [|c r]; [done|].
  rewrite E in Hc. exact Hc.
Qed.

Lemma strip_idempotent s : strip (strip s) = strip s.
Proof.
  unfold strip at 1. rewrite (lstrip_of_clean _ (strip_clean_front s)).
  unfold strip. rewrite string_rev_involutive.
  by rewrite (lstrip_of_clean _ (lstrip_clean _)).
Qed.

(** ** The entry field and the subtask dialog *)

(** X1: the subtask dialog is [add_task_to_path] under the path: Add with
    any text in the field does what [add_task_to_path] does with that
    text (stripping it twice changes nothing), and Cancel does
    nothing. *)
Theorem X1_add_subtask_is_add_task_to_path (s : app) (p : path) :
  (∀ raw, add_subtask s p (Some raw) = add_task_to_path s raw (Some p))
  ∧ add_subtask s p None = s.
Proof.
  split; [|done]. intros raw. unfold add_subtask, add_task_to_path.
  rewrite strip_idempotent. by destruct (truthy (strip raw)).
Qed.

(** X2: with text in the entry field that is not blank, [add_main_task]
    puts one task with the stripped text, not done and without subtasks,
    after the main tasks there are, and clears the field; with a blank
    field it changes neither store nor field. *)
Theorem X2_add_main_task (w : window) :
  (truthy (strip (task_entry w)) = true →
   tasks_tree (store (add_main_task w))
   = tasks_tree (store w) ++ [Task (strip (task_entry w)) (Some false) (Some [])]
   ∧ task_entry (add_main_task w) = "")
  ∧ (truthy (strip (task_entry w)) = false → add_main_task w = w).
Proof.
  unfold add_main_task, add_task_to_path. rewrite strip_idempotent.
  split; intros ->; [|done]. split; [|done].
  simpl. by rewrite tasks_tree_save.
Qed.

Lemma X2_add_main_task_witness :
  tasks_tree (store (add_main_task (Window fresh " Buy milk ")))
  = [buy_milk]
  ∧ add_main_task (Window fresh "   ") = Window fresh "   ".
Proof.
  split.
  - apply (X2_add_main_task (Window fresh " Buy milk ")). reflexivity.
  - apply (X2_add_main_task (Window fresh "   ")). reflexivity.
Defined.

(** ** Stored texts *)

Lemma forallb_lookup {A} (f : A → bool) (l : list A) :
  forallb f l = true ↔ ∀ k x, l !! k = Some x → f x = true.
Proof.
  rewrite forallb_forall. split.
  - intros H k x Hk. apply H, list_elem_of_In, list_elem_of_lookup. eauto.
  - intros H x [k Hk]%list_elem_of_In%list_elem_of_lookup. eauto.
Qed.

Lemma forallb_snoc {A} (f : A → bool) (l : list A) x :
  forallb f (l ++ [x]) = forallb f l && f x.
Proof. rewrite forallb_app. simpl. by rewrite andb_true_r. Qed.

Lemma every_task_unfold P t :
  every_task P t = P t && forallb (every_task P) (get_subtasks t).
Proof. by destruct t as [s d [l|]]. Qed.

Section every_task_kept.
Variable P : task → bool.
Hypothesis P_set_subtasks : ∀ t l, P (set_subtasks t l) = P t.

Lemma every_task_alter f k T :
  forallb (every_task P) T = true →
  (∀ t, T !! k = Some t → every_task P t = true → every_task P (f t) = true) →
  forallb (every_task P) (alter f k T) = true.
Proof.
  rewrite !forallb_lookup. intros HT Hf i t.
  destruct (decide (i = k)) as [->|].
  - rewrite list_lookup_alter_eq. destruct (T !! k) as [c|] eqn:E; [|done].
    intros [= <-]. eauto.
  - rewrite list_lookup_alter_ne by done. eauto.
Qed.

Lemma every_task_delete k T :
  forallb (every_task P) T = true →
  forallb (every_task P) (delete k T) = true.
Proof.
  rewrite !forallb_lookup. intros HT i t Hi.
  destruct (decide (i < k)%nat).
  - rewrite list_lookup_delete_lt in Hi by done. eauto.
  - rewrite list_lookup_delete_ge in Hi by lia. eauto.
Qed.

Lemma every_task_set_subtasks t l :
  every_task P t = true → forallb (every_task P) l = true →
  every_task P (set_subtasks t l) = true.
Proof.
  rewrite !every_task_unfold, get_subtasks_set, P_set_subtasks.
  intros [-> _]%andb_true_iff ->. done.
Qed.

Lemma every_task_mutate_task f p :
  (∀ t, every_task P t = true → every_task P (f t) = true) →
  ∀ T, forallb (every_task P) T = true →
       forallb (every_task P) (mutate_task f T p) = true.
Proof.
  intros Hf. induction p as [|index rest IH]; intros T HT; [done|].
  rewrite mutate_task_cons. destruct (position _ _) as [k|]; [|done].
  apply every_task_alter; [done|]. intros t _ Ht.
  destruct rest as [|j rest']; simpl; [by apply Hf|].
  destruct (subtasks t) as [l|] eqn:E; [|done].
  apply every_task_set_subtasks; [done|]. apply IH.
  rewrite every_task_unfold, (get_subtasks_Some _ _ E) in Ht.
  by apply andb_true_iff in Ht as [_ ?].
Qed.

Lemma every_task_mutate_list g q :
  (∀ l, forallb (every_task P) l = true → forallb (every_task P) (g l) = true) →
  ∀ T, forallb (every_task P) T = true →
       forallb (every_task P) (mutate_list g T q) = true.
Proof.
  intros Hg. induction q as [|index rest IH]; intros T HT; [by apply Hg|].
  unfold mutate_list; fold mutate_list.
  destruct (position _ _) as [k|]; [|done].
  apply every_task_alter; [done|]. intros t _ Ht.
  destruct (subtasks t) as [l|] eqn:E; [|done].
  apply every_task_set_subtasks; [done|]. apply IH.
  rewrite every_task_unfold, (get_subtasks_Some _ _ E) in Ht.
  by apply andb_true_iff in Ht as [_ ?].
Qed.
End every_task_kept.

Lemma text_ok_strip s d l :
  truthy (strip s) = true → text_ok (Task (strip s) d l) = true.
Proof.
  intros H. unfold text_ok. simpl.
  by rewrite strip_idempotent, bool_decide_true, H.
Qed.

(** X3: when every text in the tree is stripped and not empty, it is
    still so after adding a main task or a subtask, toggling, editing
    and deleting, whatever the text, path or answer; the code never stores
    a blank or padded text. *)
Theorem X3_texts_stay_stripped (s : app) :
  tidy (tasks_tree s) = true →
  (∀ txt p, tidy (tasks_tree (add_task_to_path s txt p)) = true)
  ∧ (∀ p entry, tidy (tasks_tree (add_subtask s p entry)) = true)
  ∧ (∀ p, tidy (tasks_tree (toggle_task s p)) = true)
  ∧ (∀ p entry, tidy (tasks_tree (edit_task s p entry)) = true)
  ∧ (∀ p confirmed, tidy (tasks_tree (delete_task s p confirmed)) = true).
Proof.
  intros H.
  assert (∀ txt p, tidy (tasks_tree (add_task_to_path s txt p)) = true)
    as Hadd.
  { intros txt p. unfold add_task_to_path.
    destruct (truthy (strip txt)) eqn:Etxt; [|done]. rewrite tasks_tree_save.
    assert (every_task text_ok (Task (strip txt) (Some false) (Some []))
            = true) as Hnew.
    { rewrite every_task_unfold, text_ok_strip by done. done. }
    destruct p as [p|]; simpl.
    - destruct (get_task_from_path _ _) as [found|]; simpl; [|done].
      apply every_task_mutate_task; [done| |done]. intros t Ht.
      apply every_task_set_subtasks; [done..|].
      rewrite every_task_unfold in Ht.
      apply andb_true_iff in Ht as [_ Ht].
      by rewrite forallb_snoc, Ht, Hnew.
    - unfold tidy in *. by rewrite forallb_snoc, H, Hnew. }
  split; [done|]. split; [|split; [|split]].
  - intros p [raw|]; [|done]. simpl. by destruct (truthy _).
  - intros p. unfold toggle_task.
    destruct (get_task_from_path _ _) as [found|]; [|done].
    rewrite tasks_tree_save. simpl.
    apply every_task_mutate_task; [done| |done]. intros t.
    by rewrite !every_task_unfold.
  - intros p entry. unfold edit_task.
    destruct (get_task_from_path _ _) as [found|]; [|done].
    destruct entry as [raw|]; [|done].
    destruct (truthy (strip raw)) eqn:Eraw; [|done].
    rewrite tasks_tree_save. simpl.
    apply every_task_mutate_task; [done| |done]. intros t.
    rewrite !every_task_unfold. intros [_ Ht]%andb_true_iff.
    change (get_subtasks (set_text t (strip raw))) with (get_subtasks t).
    rewrite Ht. unfold set_text. by rewrite text_ok_strip.
  - intros p confirmed. unfold delete_task.
    destruct (get_task_from_path _ _) as [found|]; [|done].
    destruct confirmed; [|done].
    destruct (get_parent_list_from_path _ _) as [parent_list|]; [|done].
    case_bool_decide; [|done]. rewrite tasks_tree_save. simpl.
    apply every_task_mutate_list; [done| |done].
    intros l. apply every_task_delete.
Qed.

Lemma X3_texts_stay_stripped_witness :
  tidy (tasks_tree (add_task_to_path (App [buy_milk] Absent true)
                      "  2%  " (Some [0]))) = true
  ∧ tidy (tasks_tree (edit_task (App [buy_milk] Absent true) [0]
                        (Some " Buy oat milk "))) = true.
Proof.
  destruct (X3_texts_stay_stripped (App [buy_milk] Absent true) eq_refl)
    as (Hadd & _ & _ & Hedit & _).
  split; [apply Hadd | apply Hedit].
Defined.

(** ** Hover colours *)

Lemma lighten_color_cases c :
  (c = danger ∧ lighten_color c = "#ec5555")
  ∨ (c = warning ∧ lighten_color c = "#f5a623")
  ∨ (c = success ∧ lighten_color c = "#2ecc71")
  ∨ (c = primary ∧ lighten_color c = "#4a9fd1")
  ∨ ((c ∉ [primary; success; warning; danger]) ∧ lighten_color c = c).
Proof.
  unfold lighten_color, color_map.
  destruct (decide (c = danger)) as [->|Hd]; [left; by rewrite lookup_insert_eq|].
  rewrite lookup_insert_ne by done. right.
  destruct (decide (c = warning)) as [->|Hw]; [left; by rewrite lookup_insert_eq|].
  rewrite lookup_insert_ne by done. right.
  destruct (decide (c = success)) as [->|Hs]; [left; by rewrite lookup_insert_eq|].
  rewrite lookup_insert_ne by done. right.
  destruct (decide (c = primary)) as [->|Hp]; [left; by rewrite lookup_insert_eq|].
  rewrite lookup_insert_ne, lookup_empty by done. right. split; [|done].
  rewrite !elem_of_cons, elem_of_nil. by intros [?|[?|[?|[?|[]]]]].
Qed.

Ltac in_list :=
  repeat first [apply list_elem_of_here | apply list_elem_of_further].

(** X4: [lighten_color] changes exactly the four button colours
    (primary, success, warning, danger) and gives every other colour back
    as it is; a lightened colour is not lightened again. *)
Theorem X4_lighten_color (c : string) :
  (lighten_color c ≠ c ↔ c ∈ [primary; success; warning; danger])
  ∧ lighten_color (lighten_color c) = lighten_color c.
Proof.
  destruct (lighten_color_cases c)
    as [[-> E]|[[-> E]|[[-> E]|[[-> E]|[Hc E]]]]]; rewrite E;
    (split; [|try reflexivity]).
  - split; [intros _; in_list | done].
  - split; [intros _; in_list | done].
  - split; [intros _; in_list | done].
  - split; [intros _; in_list | done].
  - split; [done|]. by intros ?.
  - done.
Qed.

(** ** The file *)




(** ** The two lookups *)

(** X7: the two lookups agree although one reads "subtasks" with a
    default and the other without: whenever the list containing the
    target is found, the task found is the item of that list at the last
    index of the path (nothing when that index is out of range), and
    whenever a task is found, so is the list that holds it. *)
Theorem X7_parent_list_holds_task (T : tree) (p : path) :
  (∀ L, get_parent_list_from_path T p = Some L →
        get_task_from_path T p = getitem L (List.last p 0))
  ∧ (∀ t, get_task_from_path T p = Some t →
          ∃ L, get_parent_list_from_path T p = Some L
               ∧ getitem L (List.last p 0) = Some t).
Proof.
  destruct p as [|index q _] using rev_ind; [done|].
  rewrite get_parent_list_snoc, get_task_from_walk, last_last. split.
  - intros L HL. by apply walk_snoc.
  - intros t Ht. by apply walk_snoc_inv.
Qed.

Lemma X7_parent_list_holds_task_witness :
  get_task_from_path
    [buy_milk; Task "Tea" None (Some [two_percent; buy_milk])] [-1; 1]
  = getitem [two_percent; buy_milk] 1.
Proof.
  apply (X7_parent_list_holds_task
           [buy_milk; Task "Tea" None (Some [two_percent; buy_milk])]
           [-1; 1]).
  reflexivity.
Defined.

(** ** After a deletion *)

Lemma delete_task_tree s q index node :
  0 ≤ index →
  get_task_from_path (tasks_tree s) (q ++ [index]) = Some node →
  ∃ L, descend (tasks_tree s) q = Some L
       ∧ getitem L index = Some node
       ∧ tasks_tree (delete_task s (q ++ [index]) true)
         = mutate_list (pop index) (tasks_tree s) q.
Proof.
  intros Hi Hnode. pose proof Hnode as Hw.
  rewrite get_task_from_walk in Hw.
  apply walk_snoc_inv in Hw as (L & HL & Hn).
  exists L. split; [done|]. split; [done|].
  assert (0 ≤ index < Z.of_nat (length L)) as Hrange.
  { apply getitem_position in Hn as (k & Hk & _).
    rewrite position_nonneg in Hk by done. by case_bool_decide. }
  unfold delete_task.
  rewrite Hnode, get_parent_list_snoc, HL, last_last, removelast_last.
  by rewrite bool_decide_true, tasks_tree_save.
Qed.

(** X8: paths are positions, not names: after a confirmed deletion at a
    path that found a task and ends in an index that is not negative, the
    same path finds the task that was the next sibling, and nothing when
    the deleted task was the last of its list. *)
Theorem X8_path_finds_next_sibling (s : app) (p : path) (node : task) :
  0 ≤ List.last p 0 →
  get_task_from_path (tasks_tree s) p = Some node →
  get_task_from_path (tasks_tree (delete_task s p true)) p
  = get_task_from_path (tasks_tree s) (removelast p ++ [List.last p 0 + 1]).
Proof.
  intros Hi Hnode. destruct p as [|index q _] using rev_ind; [done|].
  rewrite last_last, removelast_last in *.
  destruct (delete_task_tree s q index node Hi Hnode) as (L & HL & Hn & ->).
  rewrite !get_task_from_walk.
  rewrite (walk_snoc q _ _ index (descend_mutate_list (pop index) q _ _ HL)).
  rewrite (walk_snoc q _ _ (index + 1) HL).
  rewrite !getitem_nonneg by lia. unfold pop.
  rewrite list_lookup_delete_ge by lia. f_equal. lia.
Qed.

Lemma X8_path_finds_next_sibling_witness :
  get_task_from_path
    (tasks_tree (delete_task (App [buy_milk; two_percent] Absent true) [0] true))
    [0]
  = Some two_percent.
Proof.
  apply (X8_path_finds_next_sibling
           (App [buy_milk; two_percent] Absent true) [0] buy_milk).
  - vm_compute. discriminate.
  - reflexivity.
Defined.

(** ** Adding and taking back *)

Lemma mutate_task_ext f g p :
  (∀ t, f t = g t) → ∀ T, mutate_task f T p = mutate_task g T p.
Proof.
  intros Hfg. induction p as [|index rest IH]; intros T; [done|].
  rewrite !mutate_task_cons. destruct (position _ _) as [k|]; [|done].
  apply list_alter_ext; [|done]. intros t _.
  destruct rest as [|j rest']; simpl; [done|].
  destruct (subtasks t) as [l|]; [|done]. by rewrite IH.
Qed.

(** A change to the list below the task at [q] is a change to that
    task. *)
Lemma mutate_list_as_task g q : ∀ T,
  q ≠ [] →
  mutate_list g T q
  = mutate_task (λ t, match subtasks t with
                      | Some l => set_subtasks t (g l)
                      | None => t
                      end) T q.
Proof.
  induction q as [|index rest IH]; intros T Hq; [done|].
  rewrite mutate_task_cons. unfold mutate_list; fold mutate_list.
  destruct (position _ _) as [k|]; [|done].
  apply list_alter_ext; [|done]. intros t _.
  destruct rest as [|j rest']; [done|]. simpl.
  destruct (subtasks t) as [l|]; [|done]. by rewrite IH.
Qed.

Lemma descend_walk q : ∀ T t l,
  q ≠ [] → walk T q = Some t → subtasks t = Some l → descend T q = Some l.
Proof.
  induction q as [|index rest IH]; intros T t l Hq Hw Hl; [done|].
  rewrite walk_cons in Hw. simpl.
  destruct (getitem T index) as [c|]; [|by destruct rest].
  destruct rest as [|j rest'].
  - simplify_eq. by rewrite Hl.
  - simpl in Hw. rewrite (walk_through_subtasks _ _ _ Hw).
    by apply (IH _ t).
Qed.

Lemma getitem_snoc {A} (l : list A) x :
  getitem (l ++ [x]) (Z.of_nat (length l)) = Some x.
Proof.
  rewrite getitem_of_nat, lookup_app_r, Nat.sub_diag by lia. done.
Qed.

(** X9: a main task that has just been added is the last one, and
    deleting it there (confirmed) gives the tree as it was before. *)
Theorem X9_add_main_then_delete (s : app) (txt : string) :
  truthy (strip txt) = true →
  let s1 := add_task_to_path s txt None in
  let last_index := Z.of_nat (length (tasks_tree s)) in
  get_task_from_path (tasks_tree s1) [last_index]
  = Some (Task (strip txt) (Some false) (Some []))
  ∧ tasks_tree (delete_task s1 [last_index] true) = tasks_tree s.
Proof.
  intros Htxt s1 last_index.
  assert (tasks_tree s1
          = tasks_tree s ++ [Task (strip txt) (Some false) (Some [])]) as E1.
  { unfold s1, add_task_to_path. by rewrite Htxt, tasks_tree_save. }
  assert (get_task_from_path (tasks_tree s1) ([] ++ [last_index])
          = Some (Task (strip txt) (Some false) (Some []))) as Hget.
  { rewrite E1. apply getitem_snoc. }
  split; [done|].
  destruct (delete_task_tree s1 [] last_index _ ltac:(lia) Hget)
    as (L & HL & _ & E).
  simpl in E, HL. rewrite E. simplify_eq. rewrite E1.
  change (mutate_list ?g ?T []) with (g T). unfold pop, last_index.
  rewrite Nat2Z.id, delete_middle. apply app_nil_r.
Qed.

Lemma X9_add_main_then_delete_witness :
  tasks_tree
    (delete_task (add_task_to_path (App [buy_milk] Absent true) " 2% " None)
       [1] true)
  = [buy_milk].
Proof.
  apply (X9_add_main_then_delete (App [buy_milk] Absent true) " 2% ").
  reflexivity.
Defined.

(** X10: a subtask that has just been added under a found task is the
    last of that task's subtasks, and deleting it there (confirmed)
    gives the tree as it was before, provided the task had a "subtasks"
    list to begin with. *)
Theorem X10_add_subtask_then_delete
  (s : app) (p : path) (parent : task) (l : tree) (txt : string) :
  truthy (strip txt) = true →
  get_task_from_path (tasks_tree s) p = Some parent →
  subtasks parent = Some l →
  let s1 := add_task_to_path s txt (Some p) in
  let last_index := Z.of_nat (length l) in
  get_task_from_path (tasks_tree s1) (p ++ [last_index])
  = Some (Task (strip txt) (Some false) (Some []))
  ∧ tasks_tree (delete_task s1 (p ++ [last_index]) true) = tasks_tree s.
Proof.
  intros Htxt Hparent Hl s1 last_index.
  set (new_task := Task (strip txt) (Some false) (Some [])).
  set (grow := λ t, set_subtasks t (get_subtasks t ++ [new_task])).
  assert (p ≠ []) as Hp by (by intros ->).
  assert (tasks_tree s1 = mutate_task grow (tasks_tree s) p) as E1.
  { unfold s1, add_task_to_path. by rewrite Htxt, Hparent, tasks_tree_save. }
  assert (descend (tasks_tree s1) p = Some (l ++ [new_task])) as Hd.
  { apply (descend_walk p _ (grow parent)); [done| |].
    - rewrite E1, walk_mutate_task, <-get_task_from_walk, Hparent. done.
    - unfold grow. simpl. by rewrite (get_subtasks_Some _ _ Hl). }
  assert (get_task_from_path (tasks_tree s1) (p ++ [last_index])
          = Some new_task) as Hget.
  { rewrite get_task_from_walk, (walk_snoc p _ _ _ Hd). apply getitem_snoc. }
  split; [done|].
  destruct (delete_task_tree s1 p last_index _ ltac:(lia) Hget)
    as (L & HL & _ & ->).
  rewrite mutate_list_as_task, E1, mutate_task_compose by done.
  apply (mutate_task_same _ _ _ parent).
  - by rewrite <-get_task_from_walk.
  - unfold grow. simpl. rewrite (get_subtasks_Some _ _ Hl).
    unfold pop, last_index. rewrite Nat2Z.id, delete_middle, app_nil_r.
    destruct parent as [x d o]. simpl in *. by subst o.
Qed.

Lemma X10_add_subtask_then_delete_witness :
  tasks_tree
    (delete_task
       (add_task_to_path
          (App [Task "Tea" None (Some [buy_milk])] Absent true) "2%" (Some [-1]))
       [-1; 1] true)
  = [Task "Tea" None (Some [buy_milk])].
Proof.
  apply (X10_add_subtask_then_delete
           (App [Task "Tea" None (Some [buy_milk])] Absent true) [-1]
           (Task "Tea" None (Some [buy_milk])) [buy_milk] "2%");
    reflexivity.
Defined.

(** ** Editing again *)

Lemma get_after_mutate_task f T p t :
  get_task_from_path T p = Some t →
  get_task_from_path (mutate_task f T p) p = Some (f t).
Proof.
  intros H. by rewrite get_task_from_walk, walk_mutate_task,
    <-get_task_from_walk, H.
Qed.

Lemma edit_task_tree s p raw t :
  get_task_from_path (tasks_tree s) p = Some t →
  truthy (strip raw) = true →
  tasks_tree (edit_task s p (Some raw))
  = mutate_task (λ t, set_text t (strip raw)) (tasks_tree s) p.
Proof. intros Ht Hraw. unfold edit_task. by rewrite Ht, Hraw, tasks_tree_save. Qed.

Lemma edit_task_blank s p raw :
  truthy (strip raw) = false → edit_task s p (Some raw) = s.
Proof.
  intros Hraw. unfold edit_task. rewrite Hraw.
  by destruct (get_task_from_path _ _).
Qed.

Lemma edit_task_cancel s p : edit_task s p None = s.
Proof. unfold edit_task. by destruct (get_task_from_path _ _). Qed.

Lemma toggle_task_tree s p t :
  get_task_from_path (tasks_tree s) p = Some t →
  tasks_tree (toggle_task s p) = mutate_task flip_done (tasks_tree s) p.
Proof. intros Ht. unfold toggle_task. by rewrite Ht, tasks_tree_save. Qed.

(** X11: at one path the last edit wins: editing to one text and then
    to a second text that is not blank leaves the tree that editing to
    the second text alone leaves; and at one path it makes no difference
    whether a task is first edited and then toggled or the other way
    round. *)
Theorem X11_last_edit_wins (s : app) (p : path) (first second : option string) :
  (∀ raw, second = Some raw → truthy (strip raw) = true →
     tasks_tree (edit_task (edit_task s p first) p second)
     = tasks_tree (edit_task s p second))
  ∧ tasks_tree (toggle_task (edit_task s p first) p)
    = tasks_tree (edit_task (toggle_task s p) p first).
Proof.
  destruct (get_task_from_path (tasks_tree s) p) as [t|] eqn:Ht.
  2: { assert (∀ entry, edit_task s p entry = s) as Hs
         by (intros; unfold edit_task; by rewrite Ht).
       assert (toggle_task s p = s) as Hs'
         by (unfold toggle_task; by rewrite Ht).
       rewrite Hs', !Hs, Hs'. by split. }
  destruct first as [raw1|]; [destruct (truthy (strip raw1)) eqn:Hraw1|].
  - pose proof (edit_task_tree s p raw1 t Ht Hraw1) as E1.
    pose proof (get_after_mutate_task (λ t, set_text t (strip raw1)) _ _ _ Ht)
      as Hget1. rewrite <-E1 in Hget1.
    pose proof (get_after_mutate_task flip_done _ _ _ Ht) as Hget2.
    rewrite <-(toggle_task_tree s p t Ht) in Hget2.
    split.
    + intros raw -> Hraw.
      rewrite (edit_task_tree _ p raw _ Hget1 Hraw), E1.
      rewrite (edit_task_tree s p raw t Ht Hraw), mutate_task_compose.
      by apply mutate_task_ext.
    + rewrite (toggle_task_tree _ p _ Hget1), E1.
      rewrite (edit_task_tree _ p raw1 _ Hget2 Hraw1).
      rewrite (toggle_task_tree s p t Ht), !mutate_task_compose.
      by apply mutate_task_ext.
  - by rewrite !edit_task_blank.
  - by rewrite !edit_task_cancel.
Qed.

Lemma X11_last_edit_wins_witness :
  tasks_tree
    (edit_task (edit_task (App [buy_milk] Absent true) [0] (Some "Buy tea"))
       [0] (Some " Buy oat milk "))
  = tasks_tree
      (edit_task (App [buy_milk] Absent true) [0] (Some " Buy oat milk ")).
Proof.
  destruct (X11_last_edit_wins (App [buy_milk] Absent true) [0]
              (Some "Buy tea") (Some " Buy oat milk ")) as [Hlast _].
  apply (Hlast " Buy oat milk "); reflexivity.
Defined.

(** ** One widget per path *)

Lemma display_each_path parent depth l i w :
  w ∈ display_each parent depth l i →
  ∃ k rel, (k < length l)%nat ∧ w_path w = parent ++ (i + Z.of_nat k) :: rel.
Proof.
  intros (k & c & Hk & Hw)%elem_of_display_each.
  apply display_task_recursive_sound in Hw as (rel & Hp & _).
  exists k, rel. split; [by eapply lookup_lt_Some|].
  by rewrite Hp, <-app_assoc.
Qed.

Lemma display_each_longer parent depth l i w :
  w ∈ display_each parent depth l i → w_path w ≠ parent.
Proof.
  intros (k & rel & _ & ->)%display_each_path E.
  apply (f_equal length) in E. rewrite length_app in E. simpl in E. lia.
Qed.

Lemma NoDup_display_each parent depth l : ∀ i,
  Forall (λ t, ∀ p d, NoDup (w_path <$> display_task_recursive t p d)) l →
  NoDup (w_path <$> display_each parent depth l i).
Proof.
  induction l as [|t l IH]; intros i Hl; [constructor|].
  apply Forall_cons in Hl as [Ht Hl]. simpl.
  rewrite fmap_app. apply NoDup_app. split; [apply Ht|]. split; [|by apply IH].
  intros x (w & -> & Hw)%list_elem_of_fmap (w' & E & Hw')%list_elem_of_fmap.
  apply display_task_recursive_under in Hw as [rel Hp].
  apply display_each_path in Hw' as (k & rel' & _ & Hp').
  rewrite Hp, Hp', <-app_assoc in E. apply app_inv_head in E.
  injection E as E _. lia.
Qed.

Lemma NoDup_display_task_recursive t : ∀ p d,
  NoDup (w_path <$> display_task_recursive t p d).
Proof.
  induction t as [s dn|s dn l IH] using task_nested_ind; intros p d;
    rewrite display_task_recursive_unfold, fmap_cons; simpl.
  - apply NoDup_singleton.
  - apply NoDup_cons. split; [|by apply NoDup_display_each].
    intros (w & E & Hw)%list_elem_of_fmap.
    by apply display_each_longer in Hw.
Qed.

(** X12: no two widgets of one refresh carry the same path, so the
    path that a button hands to its callback names one widget. *)
Theorem X12_widget_paths_distinct (T : tree) :
  NoDup (w_path <$> refresh_display T).
Proof.
  apply NoDup_display_each, Forall_forall. intros t _.
  apply NoDup_display_task_recursive.
Qed.

(** ** What toggling and editing leave alone *)

Lemma retouched_off f target (ws : list widget) :
  (∀ w, w ∈ ws → w_path w ≠ target) → retouched f target <$> ws = face <$> ws.
Proof.
  intros H. apply list_fmap_ext. intros k w Hw. unfold retouched.
  rewrite decide_False; [done|]. apply H. by eapply list_elem_of_lookup_2.
Qed.

Lemma display_each_other_index parent depth l i target rest w :
  (∀ k, (k < length l)%nat → i + Z.of_nat k ≠ target) →
  w ∈ display_each parent depth l i → w_path w ≠ parent ++ target :: rest.
Proof.
  intros Hne (k & rel & Hk & ->)%display_each_path E.
  apply app_inv_head in E. simplify_eq. by apply (Hne k).
Qed.

Lemma mutate_task_cons_split f l1 t l2 rest :
  mutate_task f (l1 ++ t :: l2) (Z.of_nat (length l1) :: rest)
  = l1 ++ mutate_step f rest t :: l2.
Proof.
  rewrite mutate_task_cons.
  rewrite position_of_nat by (rewrite length_app; simpl; lia).
  rewrite <-(Nat.add_0_r (length l1)) at 1. by rewrite alter_app_r.
Qed.

(** A change that keeps the subtasks of the task it is made to shows in
    the widget of that task and nowhere else. *)
Lemma face_display_mutate_task f p :
  (∀ t, subtasks (f t) = subtasks t) →
  ∀ T parent depth x,
    Forall (λ i, 0 ≤ i) p → walk T p = Some x →
    face <$> display_each parent depth (mutate_task f T p) 0
    = retouched f (parent ++ p) <$> display_each parent depth T 0.
Proof.
  intros Hf. induction p as [|i rest IH]; intros T parent depth x Hp Hw;
    [done|].
  apply Forall_cons in Hp as [Hi Hrest]. rewrite walk_cons in Hw.
  destruct (getitem T i) as [t|] eqn:Et; [|by destruct rest].
  apply getitem_split in Et as (l1 & l2 & -> & -> & _); [|done].
  rewrite mutate_task_cons_split, !display_each_split, !fmap_app.
  rewrite (retouched_off _ _ (display_each parent depth l1 0)).
  2: { intros w. apply display_each_other_index. intros; lia. }
  rewrite (retouched_off _ _ (display_each parent depth l2 _)).
  2: { intros w. apply display_each_other_index. intros; lia. }
  f_equal. f_equal. rewrite !display_task_recursive_unfold, !fmap_cons.
  destruct rest as [|j rest'].
  - simpl. unfold get_subtasks. rewrite Hf.
    fold (get_subtasks t). f_equal.
    + unfold retouched. simpl. by rewrite decide_True.
    + symmetry. apply retouched_off. intros w. apply display_each_longer.
  - simpl in Hw. pose proof (walk_through_subtasks _ _ _ Hw) as Hl.
    simpl. rewrite Hl, get_subtasks_set. f_equal.
    + unfold retouched. simpl. rewrite decide_False; [done|].
      intros E. apply app_inv_head in E. discriminate E.
    + rewrite (IH _ (parent ++ [Z.of_nat (length l1)]) (S depth) x) by done.
      by rewrite <-app_assoc.
Qed.



(** X14: editing at a path without negative indices that finds a task,
    saved with a text that is not blank, changes what one widget shows
    and nothing else: the widget at the path shows the stripped text, and
    all paths, all other texts, all done flags and all depths are as
    before. *)
Theorem X14_edit_touches_one_widget
  (s : app) (p : path) (t : task) (raw : string) :
  Forall (λ i, 0 ≤ i) p →
  get_task_from_path (tasks_tree s) p = Some t →
  truthy (strip raw) = true →
  face <$> refresh_display (tasks_tree (edit_task s p (Some raw)))
  = retouched (λ t, set_text t (strip raw)) p
      <$> refresh_display (tasks_tree s).
Proof.
  intros Hp Ht Hraw. rewrite (edit_task_tree s p raw t Ht Hraw).
  apply (face_display_mutate_task (λ t, set_text t (strip raw)) p
           (λ _, eq_refl) _ [] 0%nat t); [done|].
  by rewrite <-get_task_from_walk.
Qed.

Lemma X14_edit_touches_one_widget_witness :
  face
    <$> refresh_display
          (tasks_tree
             (edit_task
                (App [buy_milk; Task "Tea" None (Some [two_percent])]
                   Absent true) [1] (Some " Green tea ")))
  = [("Buy milk", Some false, 0%nat, [0]);
     ("Green tea", None, 0%nat, [1]);
     ("2%", Some false, 1%nat, [1; 0])].
Proof.
  rewrite (X14_edit_touches_one_widget
             (App [buy_milk; Task "Tea" None (Some [two_percent])] Absent true)
             [1] (Task "Tea" None (Some [two_percent])) " Green tea ").
  - reflexivity.
  - repeat constructor; discriminate.
  - reflexivity.
  - reflexivity.
Defined.

(** ** What adding a subtask leaves alone *)

Lemma display_each_leaf parent depth (new : task) i :
  get_subtasks new = [] →
  display_each parent depth [new] i = [Widget new (parent ++ [i]) depth].
Proof.
  intros Hnew. simpl. by rewrite display_task_recursive_unfold, Hnew.
Qed.

(** A new last subtask shows as one more widget, and the others show
    what they showed. *)
Lemma face_display_grow new p :
  get_subtasks new = [] →
  ∀ T parent depth x,
    Forall (λ i, 0 ≤ i) p → walk T p = Some x →
    face
      <$> filter
            (λ w, w_path w
                  ≠ parent ++ p ++ [Z.of_nat (length (get_subtasks x))])
            (display_each parent depth
               (mutate_task
                  (λ t, set_subtasks t (get_subtasks t ++ [new])) T p) 0)
    = face <$> display_each parent depth T 0.
Proof.
  intros Hnew. induction p as [|i rest IH]; intros T parent depth x Hp Hw;
    [done|].
  apply Forall_cons in Hp as [Hi Hrest]. rewrite walk_cons in Hw.
  destruct (getitem T i) as [t|] eqn:Et; [|by destruct rest].
  apply getitem_split in Et as (l1 & l2 & -> & -> & _); [|done].
  rewrite mutate_task_cons_split, !display_each_split, !filter_app, !fmap_app.
  rewrite <-app_comm_cons.
  rewrite (filter_all _ (display_each parent depth l1 0)).
  2: { intros w. apply display_each_other_index. intros; lia. }
  rewrite (filter_all _ (display_each parent depth l2 _)).
  2: { intros w. apply display_each_other_index. intros; lia. }
  f_equal. f_equal. rewrite !display_task_recursive_unfold.
  rewrite filter_cons_True.
  2: { simpl. intros E. apply app_inv_head in E.
       destruct rest; discriminate E. }
  rewrite !fmap_cons. destruct rest as [|j rest'].
  - simpl in Hw. simplify_eq. simpl. rewrite get_subtasks_set.
    f_equal. rewrite display_each_app, (display_each_leaf _ _ _ _ Hnew).
    rewrite filter_app, filter_cons_False, filter_nil, app_nil_r.
    + f_equal. apply filter_all. intros w Hw.
      rewrite (cons_middle (Z.of_nat (length l1)) parent), app_assoc.
      revert Hw. apply display_each_other_index. intros; lia.
    + simpl. intros E. apply E. by rewrite <-app_assoc.
  - simpl in Hw. pose proof (walk_through_subtasks _ _ _ Hw) as Hl.
    simpl. rewrite Hl, get_subtasks_set. f_equal.
    rewrite <-(IH (get_subtasks t) (parent ++ [Z.of_nat (length l1)])
                 (S depth) x) by done.
    by rewrite <-app_assoc.
Qed.

(** X15: adding a subtask under a path without negative indices that
    finds a task puts the new task after the subtasks that task has
    (as its first one when it had no "subtasks" key), where the path
    extended by the former number of subtasks finds it; leaving the new
    widget out, the refresh shows the same paths, texts, done flags and
    depths as before. *)
Theorem X15_add_subtask_adds_one_widget
  (s : app) (p : path) (parent : task) (txt : string) :
  Forall (λ i, 0 ≤ i) p →
  get_task_from_path (tasks_tree s) p = Some parent →
  truthy (strip txt) = true →
  let s1 := add_task_to_path s txt (Some p) in
  let new_path := p ++ [Z.of_nat (length (get_subtasks parent))] in
  get_task_from_path (tasks_tree s1) new_path
  = Some (Task (strip txt) (Some false) (Some []))
  ∧ face <$> filter (λ w, w_path w ≠ new_path) (refresh_display (tasks_tree s1))
    = face <$> refresh_display (tasks_tree s).
Proof.
  intros Hp Hparent Htxt s1 new_path.
  set (new_task := Task (strip txt) (Some false) (Some [])).
  set (grow := λ t, set_subtasks t (get_subtasks t ++ [new_task])).
  assert (p ≠ []) as Hne by (by intros ->).
  assert (tasks_tree s1 = mutate_task grow (tasks_tree s) p) as E1.
  { unfold s1, add_task_to_path. by rewrite Htxt, Hparent, tasks_tree_save. }
  split.
  - assert (descend (tasks_tree s1) p
            = Some (get_subtasks parent ++ [new_task])) as Hd.
    { apply (descend_walk p _ (grow parent)); [done| |done].
      by rewrite E1, walk_mutate_task, <-get_task_from_walk, Hparent. }
    unfold new_path.
    rewrite get_task_from_walk, (walk_snoc p _ _ _ Hd). apply getitem_snoc.
  - rewrite E1. unfold new_path.
    apply (face_display_grow new_task p eq_refl _ [] 0%nat parent); [done|].
    by rewrite <-get_task_from_walk.
Qed.

Lemma X15_add_subtask_adds_one_widget_witness :
  get_task_from_path
    (tasks_tree
       (add_task_to_path (App [Task "Tea" None None] Absent true) " 2% "
          (Some [0])))
    [0; 0]
  = Some two_percent.
Proof.
  apply (X15_add_subtask_adds_one_widget
           (App [Task "Tea" None None] Absent true) [0]
           (Task "Tea" None None) " 2% ").
  - repeat constructor; discriminate.
  - reflexivity.
  - reflexivity.
Defined.

(** ** Start and close *)

(** X16: starting and closing at once with a file that can be written
    leaves a document as it was, and replaces a missing file, an empty
    file and a file that is not JSON by the empty list. *)
Theorem X16_start_then_close (f : backing) (s : app) :
  startup f true = Ok s →
  data_file (on_closing s)
  = match f with
    | Document T => Document T
    | _ => Document []
    end.
Proof.
  unfold startup, load_tasks, on_closing, save_tasks.
  destruct f as [|e| |e|T]; simpl; try destruct (load_catches e);
    try discriminate; by intros [= <-].
Qed.

Lemma X16_start_then_close_witness :
  data_file (on_closing (App [] (LoadFails JSONDecodeError) true))
  = Document [].
Proof.
  apply (X16_start_then_close (LoadFails JSONDecodeError)
           (App [] (LoadFails JSONDecodeError) true)).
  reflexivity.
Defined.

(** ** Walking on *)

Lemma walk_app p : ∀ T q,
  p ≠ [] → q ≠ [] →
  walk T (p ++ q) = walk T p ≫= λ t, walk (get_subtasks t) q.
Proof.
  induction p as [|i rest IH]; intros T q Hp Hq; [done|].
  rewrite <-app_comm_cons, !walk_cons.
  destruct rest as [|j rest'].
  - simpl. by destruct q.
  - rewrite <-app_comm_cons.
    destruct (getitem T i) as [t|]; [|done]. simpl.
    by rewrite app_comm_cons, IH.
Qed.

(** X17: lookups compose: a path in two parts finds what its second
    part finds among the subtasks of the task that its first part finds;
    so below a path that finds nothing, nothing is found. *)
Theorem X17_lookup_in_two_steps (T : tree) (p q : path) :
  p ≠ [] → q ≠ [] →
  get_task_from_path T (p ++ q)
  = get_task_from_path T p ≫= (λ t, get_task_from_path (get_subtasks t) q)
  ∧ (get_task_from_path T p = None → get_task_from_path T (p ++ q) = None).
Proof.
  intros Hp Hq.
  assert (get_task_from_path T (p ++ q)
          = get_task_from_path T p
              ≫= (λ t, get_task_from_path (get_subtasks t) q)) as E.
  { rewrite !get_task_from_walk, walk_app by done.
    destruct (walk T p); [|done]. simpl. by rewrite get_task_from_walk. }
  split; [done|]. intros H. by rewrite E, H.
Qed.

Lemma X17_lookup_in_two_steps_witness :
  get_task_from_path
    [buy_milk; Task "Tea" None (Some [two_percent; buy_milk])] ([-1] ++ [0])
  = Some two_percent.
Proof.
  destruct (X17_lookup_in_two_steps
              [buy_milk; Task "Tea" None (Some [two_percent; buy_milk])]
              [-1] [0]) as [E _]; [discriminate..|].
  rewrite E. reflexivity.
Defined.
